(** * apiauth: key-set algorithm mapping and auth middleware construction

    A shallow embedding of [internal/apiauth] of xmidt-org/skeleton:
    [mapAlgs.go] ([keyToAlgs], [mapMissingAlgorithms]), [options.go]
    ([WithConfig], [validate]) and the auth file ([Config], [New], [Then],
    [Basic.valid], [JWT.valid]).

    Go values are modelled as follows.
    - [error] values: an inductive type, [None : option error] is [nil].
    - a function returning [(T, error)] with a meaningless [T] on failure:
      [result T].
    - [jwa.KeyType], [jwa.SignatureAlgorithm]: Go string types, hence [string].
    - a [jwk.Key]: a record carrying the identity of the Go object ([ref],
      its address) next to its fields, because [jwk.Set.AddKey] compares keys
      by identity.  [Clone] allocates, so the code that clones runs in a
      state monad over the next free address.
    - a Go map / slice that may be [nil]: [option] of a [gmap] / [list]. *)

From Stdlib Require Import ZArith Lia.
From stdpp Require Import base option numbers strings list gmap.

(** ** Go errors *)

Module errors.

Inductive error : Type :=
| New (text : string)                       (* errors.New(text) *)
| Library (pkg name : string)               (* an error value of a library *)
| Errorf (text : string)                    (* fmt.Errorf without %w *)
| Errorf_w (wrapped : error) (text : string)  (* fmt.Errorf("%w: text", wrapped) *)
| Join (e1 e2 : error).                     (* errors.Join(e1, e2) *)

#[global] Instance error_eq_dec : EqDecision error.
Proof. solve_decision. Defined.

(* errors.Is: the error itself or anything it wraps or joins *)
Fixpoint Is (err target : error) : bool :=
  bool_decide (err = target) ||
  match err with
  | Errorf_w wrapped _ => Is wrapped target
  | Join e1 e2 => Is e1 target || Is e2 target
  | _ => false
  end.

(* a Go result pair (value, error) whose value is only used when err == nil *)
Inductive result (A : Type) : Type :=
| Ok (a : A)
| Err (e : error).
Arguments Ok {A} a.
Arguments Err {A} e.

Definition is_Ok {A} (r : result A) : bool :=
  match r with Ok _ => true | Err _ => false end.

(* v, err := c; if err != nil { return nil, wrap(err) }; k v *)
Definition try {A B} (c : result A) (wrap : error -> error)
    (k : A -> result B) : result B :=
  match c with
  | Ok a => k a
  | Err err => Err (wrap err)
  end.

End errors.
Export errors.

(** ** github.com/lestrrat-go/jwx/v2/jwa: the constants the code names *)

Module jwa.

Definition KeyType := string.
Definition EC : KeyType := "EC".
Definition InvalidKeyType : KeyType := "".
Definition OKP : KeyType := "OKP".
Definition OctetSeq : KeyType := "oct".
Definition RSA : KeyType := "RSA".

Definition SignatureAlgorithm := string.
Definition ES256 : SignatureAlgorithm := "ES256".
Definition ES384 : SignatureAlgorithm := "ES384".
Definition ES512 : SignatureAlgorithm := "ES512".
Definition EdDSA : SignatureAlgorithm := "EdDSA".
Definition PS256 : SignatureAlgorithm := "PS256".
Definition PS384 : SignatureAlgorithm := "PS384".
Definition PS512 : SignatureAlgorithm := "PS512".
Definition RS256 : SignatureAlgorithm := "RS256".
Definition RS384 : SignatureAlgorithm := "RS384".
Definition RS512 : SignatureAlgorithm := "RS512".

(* jwa.KeyAlgorithm: an interface with String(), implemented by the
   algorithm string types *)
Inductive KeyAlgorithm : Type :=
| SigAlg (a : SignatureAlgorithm)
| KeyEncAlg (a : string)
| InvalidKeyAlgorithm (a : string).

Definition String (a : KeyAlgorithm) : string :=
  match a with
  | SigAlg s => s
  | KeyEncAlg s => s
  | InvalidKeyAlgorithm s => s
  end.

#[global] Instance KeyAlgorithm_eq_dec : EqDecision KeyAlgorithm.
Proof. solve_decision. Defined.

End jwa.

(** ** crypto/elliptic, crypto/ecdsa and the other raw key types *)

Module elliptic.

Inductive Curve : Type :=
| P224 | P256 | P384 | P521
| Custom (name : string).

#[global] Instance Curve_eq_dec : EqDecision Curve.
Proof. solve_decision. Defined.

End elliptic.

Inductive RawKey : Type :=
| ecdsa_PublicKey (curve : elliptic.Curve) (X Y : Z)
| ecdsa_PrivateKey (curve : elliptic.Curve) (X Y D : Z)
| rsa_PublicKey (N E : Z)
| rsa_PrivateKey (N E D : Z)
| other_raw (bytes : string).

#[global] Instance RawKey_eq_dec : EqDecision RawKey.
Proof. solve_decision. Defined.

#[global] Instance result_eq_dec {A} `{EqDecision A} : EqDecision (result A).
Proof. solve_decision. Defined.

(** ** github.com/lestrrat-go/jwx/v2/jwk: keys and key sets *)

Module jwk.

Record Key : Type := mkKey {
  ref : nat;                              (* identity of the Go object *)
  KeyID : string;                         (* "kid" *)
  KeyType : jwa.KeyType;                  (* "kty" *)
  algorithm : option jwa.KeyAlgorithm;    (* "alg", nil when absent *)
  Raw : result RawKey                     (* what key.Raw(&raw) yields *)
}.

#[global] Instance Key_eq_dec : EqDecision Key.
Proof. solve_decision. Defined.

(* key.Algorithm(): the invalid algorithm with an empty name when unset *)
Definition Algorithm (key : Key) : jwa.KeyAlgorithm :=
  match algorithm key with
  | Some a => a
  | None => jwa.InvalidKeyAlgorithm ""
  end.

(* a jwk.Set: the keys in insertion order *)
Definition Set_ := list Key.

Definition NewSet : Set_ := [].

(* set.AddKey(key): refuses a key object the set already holds, appends
   otherwise *)
Definition AddKey (s : Set_) (key : Key) : result Set_ :=
  if bool_decide (ref key ∈ ref <$> s)
  then Err (Library "jwk" "(jwk.Set).AddKey: key already exists")
  else Ok (s ++ [key]).

(* key.Set(jwk.AlgorithmKey, alg) with alg a jwa.SignatureAlgorithm *)
Definition Set_AlgorithmKey (key : Key) (alg : jwa.SignatureAlgorithm)
  : result Key :=
  Ok {| ref := ref key; KeyID := KeyID key; KeyType := KeyType key;
        algorithm := Some (jwa.SigAlg alg); Raw := Raw key |}.

(** Code that allocates: a state monad over the next free address, with
    errors. *)
Definition M (A : Type) : Type := nat -> result A * nat.

Definition ret {A} (a : A) : M A := fun h => (Ok a, h).

Definition lift {A} (r : result A) : M A := fun h => (r, h).

Definition bind {A B} (c : M A) (k : A -> M B) : M B :=
  fun h =>
    match c h with
    | (Ok a, h') => k a h'
    | (Err e, h') => (Err e, h')
    end.

(* key.Clone(): a new object with the same fields *)
Definition Clone (key : Key) : M Key :=
  fun h => (Ok {| ref := h; KeyID := KeyID key; KeyType := KeyType key;
                  algorithm := algorithm key; Raw := Raw key |}, S h).

(* jwk.PostFetchFunc *)
Definition PostFetchFunc : Type :=
  string -> Set_ -> nat -> (Set_ * option error) * nat.

Section Cache.
Context {Client : Type}.

(* the jwk.RegisterOption values the code builds *)
Inductive RegisterOption : Type :=
| WithRefreshInterval (d : Z)
| WithPostFetcher (f : PostFetchFunc)
| WithHTTPClient (c : Client).

(* a jwk.Cache: the URLs registered with it and their options *)
Definition Cache : Type := list (string * list RegisterOption).

Definition NewCache : Cache := [].

(* jwk.NewCachedSet(cache, url): a jwk.Set served from the cache *)
Record CachedSet : Type := NewCachedSet {
  cache : Cache;
  url : string
}.
End Cache.
Arguments RegisterOption Client : clear implicits.
Arguments Cache Client : clear implicits.
Arguments CachedSet Client : clear implicits.

End jwk.

Notation "'let*' x ':=' c 'in' k" := (jwk.bind c (fun x => k))
  (at level 10, x name, c at level 100, k at level 200).

(** ** net/http, bascule, basculehttp, basculejwt

    The libraries the auth file builds its middleware from.  What the code
    constructs is data that records how it was configured; what only the
    libraries decide is a member of the class [External] below. *)

Module http.

Record Request : Type := {
  Method : string;
  Path : string;
  Header : gmap string (list string)
}.

Record Response : Type := {
  StatusCode : Z;
  Body : string
}.

(* an http.Handler: the response it writes for a request *)
Definition Handler : Type := Request -> Response.

End http.

Module bascule.

Definition ErrBadCredentials : error := Library "bascule" "ErrBadCredentials".
Definition ErrUnauthorized : error := Library "bascule" "ErrUnauthorized".

(* a bascule.Token, by the dynamic types the code asserts on *)
Inductive Token : Type :=
| BasicToken (UserName Password : string)                 (* basculehttp.BasicToken *)
| Claims (Subject : string) (capabilities : list string)  (* basculejwt.Claims *)
| OtherToken (Principal : string).

(* bascule.GetCapabilities(token); the code discards the ok flag *)
Definition GetCapabilities (token : Token) : list string :=
  match token with
  | Claims _ capabilities => capabilities
  | _ => []
  end.

(* bascule.AsValidator[*http.Request](f) *)
Definition Validator : Type := Token -> option error.

End bascule.

Module basculehttp.

Definition Scheme := string.
Definition SchemeBasic : Scheme := "Basic".
Definition SchemeBearer : Scheme := "Bearer".

Section Middleware.
Context {Client : Type}.

(* the token parser registered for a scheme: WithBasic() registers the
   basic one, WithScheme(scheme, jwtp) the one given *)
Inductive TokenParser : Type :=
| BasicTokenParser
| JWTTokenParser (keys : jwk.CachedSet Client).   (* basculejwt.NewTokenParser(jwt.WithKeySet(keys)) *)

(* an AuthorizationParser: the schemes it accepts *)
Definition AuthorizationParser : Type := list (Scheme * TokenParser).

Definition WithBasic : Scheme * TokenParser :=
  (SchemeBasic, BasicTokenParser).

Definition WithScheme (scheme : Scheme) (tp : TokenParser)
  : Scheme * TokenParser := (scheme, tp).

(* NewAuthenticator(WithTokenParsers(tp), WithValidators(v)) *)
Record Authenticator : Type := NewAuthenticator {
  WithTokenParsers : AuthorizationParser;
  WithValidators : bascule.Validator
}.

(* a Middleware built with UseAuthenticator *)
Record Middleware : Type := mkMiddleware {
  UseAuthenticator : Authenticator
}.
End Middleware.
Arguments TokenParser Client : clear implicits.
Arguments AuthorizationParser Client : clear implicits.
Arguments Authenticator Client : clear implicits.
Arguments Middleware Client : clear implicits.

End basculehttp.

(** What the libraries decide and the repository does not: the client
    configuration type of arrangehttp, whether a constructor returns an
    error, and how a middleware decorates a handler. *)
Class External : Type := {
  ClientConfig : Type;                                  (* arrangehttp.ClientConfig *)
  ClientConfig_eq_dec :: EqDecision ClientConfig;       (* reflect.DeepEqual on it *)
  ClientConfig_zero : ClientConfig;                     (* its zero value *)
  Client : Type;                                        (* *http.Client *)
  NewClient : ClientConfig -> result Client;            (* cfg.NewClient() *)
  Register :                                            (* cache.Register(url, opts...) *)
    jwk.Cache Client -> string -> list (jwk.RegisterOption Client) ->
    result (jwk.Cache Client);
  NewTokenParser :                                      (* basculejwt.NewTokenParser *)
    jwk.CachedSet Client -> result (basculehttp.TokenParser Client);
  NewAuthorizationParser :                              (* basculehttp.NewAuthorizationParser *)
    list (basculehttp.Scheme * basculehttp.TokenParser Client) ->
    result (basculehttp.AuthorizationParser Client);
  NewMiddleware :                                       (* basculehttp.NewMiddleware *)
    basculehttp.Authenticator Client -> result (basculehttp.Middleware Client);
  ThenFunc :                                            (* Middleware.ThenFunc *)
    basculehttp.Middleware Client -> http.Handler -> http.Handler
}.

(** ** internal/apiauth/mapAlgs.go *)

Module apiauth.

Import jwk.

(* keyToAlgs: the algorithms that are supported by the key *)
Definition keyToAlgs (key : Key) : result (list jwa.SignatureAlgorithm) :=
  let kt := KeyType key in
  let unsupported := Err (Errorf ("unsupported key type " +:+ kt)) in
  if bool_decide (kt = jwa.RSA) then
    Ok [jwa.RS256; jwa.RS384; jwa.RS512; jwa.PS256; jwa.PS384; jwa.PS512]
  else if bool_decide (kt = jwa.OKP) then
    Ok [jwa.EdDSA]
  else if bool_decide (kt = jwa.EC) then
    match Raw key with
    | Err err => Err err
    | Ok (ecdsa_PublicKey curve _ _) =>
        match curve with
        | elliptic.P256 => Ok [jwa.ES256]
        | elliptic.P384 => Ok [jwa.ES384]
        | elliptic.P521 => Ok [jwa.ES512]
        | _ => unsupported
        end
    | Ok (ecdsa_PrivateKey curve _ _ _) =>
        match curve with
        | elliptic.P256 => Ok [jwa.ES256]
        | elliptic.P384 => Ok [jwa.ES384]
        | elliptic.P521 => Ok [jwa.ES512]
        | _ => unsupported
        end
    | Ok _ => unsupported
    end
  else unsupported.

(* the inner loop of mapMissingAlgorithms: for _, alg := range algs *)
Fixpoint addClones (key : Key) (algs : list jwa.SignatureAlgorithm)
    (newKeys : Set_) : M Set_ :=
  match algs with
  | [] => ret newKeys
  | alg :: algs' =>
      let* keyDup := Clone key in
      let* keyDup := lift (Set_AlgorithmKey keyDup alg) in
      let* newKeys := lift (AddKey newKeys keyDup) in
      addClones key algs' newKeys
  end.

(* the outer loop of mapMissingAlgorithms: for keys.Next(ctx) *)
Fixpoint eachKey (keys : list Key) (newKeys : Set_) : M Set_ :=
  match keys with
  | [] => ret newKeys
  | key :: keys' =>
      if negb (String.eqb (jwa.String (Algorithm key)) "") then
        let* newKeys := lift (AddKey newKeys key) in
        eachKey keys' newKeys
      else
        let* algs := lift (keyToAlgs key) in
        let* newKeys := addClones key algs newKeys in
        eachKey keys' newKeys
  end.

(* mapMissingAlgorithms(ctx)(url, keySet): the new set and nil, or the
   set it was given and the error *)
Definition mapMissingAlgorithms (url : string) (keySet : Set_)
  : nat -> (Set_ * option error) * nat :=
  fun h =>
    match eachKey keySet NewSet h with
    | (Ok newKeys, h') => ((newKeys, None), h')
    | (Err err, h') => ((keySet, Some err), h')
    end.

(** *** errors *)

(* ErrInvalidConfig is returned when the config is invalid. *)
Definition ErrInvalidConfig : error := errors.New "invalid config".

(** *** the auth file and options.go *)

Section Auth.
Context `{External}.

(* Basic is a map of usernames to passwords; None is the nil map. *)
Definition Basic : Type := option (gmap string string).

(* Provider contains the configuration for accessing the public keys. *)
Record Provider : Type := {
  URL : string;
  RefreshInterval : Z;
  HTTPClient : ClientConfig;
  DisableAutoAddMissingAlgorithm : bool
}.

(* JWT holds the configuration for JWT based auth; None is the nil
   slice. *)
Record JWT : Type := {
  KeyProvider : Provider;
  RequiredServiceCapabilities : option (list string)
}.

Record Config : Type := {
  Disable : bool;
  Config_Basic : Basic;
  Config_JWT : JWT
}.

Record Auth : Type := {
  middleware : option (basculehttp.Middleware Client);
  config : Config
}.

#[global] Instance Provider_eq_dec : EqDecision Provider.
Proof. solve_decision. Defined.
#[global] Instance JWT_eq_dec : EqDecision JWT.
Proof. solve_decision. Defined.
#[global] Instance Config_eq_dec : EqDecision Config.
Proof. solve_decision. Defined.

(* the zero values: Provider{}, JWT{}, Config{}, Auth{} *)
Definition Provider_zero : Provider :=
  {| URL := ""; RefreshInterval := 0; HTTPClient := ClientConfig_zero;
     DisableAutoAddMissingAlgorithm := false |}.
Definition JWT_zero : JWT :=
  {| KeyProvider := Provider_zero; RequiredServiceCapabilities := None |}.
Definition Config_zero : Config :=
  {| Disable := false; Config_Basic := None; Config_JWT := JWT_zero |}.
Definition Auth_zero : Auth :=
  {| middleware := None; config := Config_zero |}.

(* reflect.DeepEqual on Config values: nil and empty maps or slices
   differ, everything else is compared field by field *)
Definition DeepEqual (a b : Config) : bool := bool_decide (a = b).

(* Option is an interface that is used to apply options to the Auth
   struct: the updated struct, or the error *)
Definition Option : Type := Auth -> result Auth.

Definition WithConfig (c : Config) : Option :=
  fun a => Ok {| middleware := middleware a; config := c |}.

Definition validate : Option :=
  fun a =>
    if Disable (config a) &&
       negb (DeepEqual (config a)
               {| Disable := true; Config_Basic := None;
                  Config_JWT := JWT_zero |})
    then Err (Errorf_w ErrInvalidConfig
                "disable cannot have additional values")
    else if DeepEqual (config a) Config_zero
    then Err (Errorf_w ErrInvalidConfig
                "empty configuration is not valid, set 'disable' to true if no validation is wanted")
    else Ok a.

(* len(s) of a possibly nil slice, and ranging over it *)
Definition elems {A} (s : option (list A)) : list A :=
  match s with Some l => l | None => [] end.

(* func (cfg *Basic) valid(token bascule.Token) error *)
Definition Basic_valid (cfg : Basic) (token : bascule.Token)
  : option error :=
  match token with
  | bascule.BasicToken UserName Password =>
      if existsb
           (fun '(u, p) =>
              bool_decide (UserName = u) && bool_decide (Password = p))
           (map_to_list (default ∅ cfg))
      then None
      else Some bascule.ErrBadCredentials
  | _ => Some bascule.ErrBadCredentials
  end.

(* func (cfg *JWT) valid(token bascule.Token) error:
   just checking for at least one capability *)
Definition JWT_valid (cfg : JWT) (token : bascule.Token) : option error :=
  match token with
  | bascule.Claims _ _ =>
      if Nat.eqb (length (elems (RequiredServiceCapabilities cfg))) 0
      then None
      else
        let capabilities := bascule.GetCapabilities token in
        if existsb
             (fun capability =>
                existsb
                  (fun serviceCapability =>
                     bool_decide (capability = serviceCapability))
                  (elems (RequiredServiceCapabilities cfg)))
             capabilities
        then None
        else Some bascule.ErrUnauthorized
  | _ => Some bascule.ErrBadCredentials
  end.

(* func (cfg *Basic) middleware(): the middleware, or the error *)
Definition Basic_middleware (cfg : Basic)
  : result (basculehttp.Middleware Client) :=
  try (NewAuthorizationParser [basculehttp.WithBasic]) id (fun tp =>
  NewMiddleware (basculehttp.NewAuthenticator tp (Basic_valid cfg))).

(* func (cfg *Provider) toKeySet(ctx) (jwk.Set, error) *)
Definition toKeySet (cfg : Provider) : result (jwk.CachedSet Client) :=
  let cache := jwk.NewCache in
  let opts := [jwk.WithRefreshInterval (RefreshInterval cfg)] in
  let opts :=
    if negb (DisableAutoAddMissingAlgorithm cfg)
    then opts ++ [jwk.WithPostFetcher mapMissingAlgorithms]
    else opts in
  try (NewClient (HTTPClient cfg)) id (fun client =>
  let opts := opts ++ [jwk.WithHTTPClient client] in
  try (Register cache (URL cfg) opts) id (fun cache =>
  Ok (jwk.NewCachedSet cache (URL cfg)))).

(* func (cfg *JWT) middleware(ctx): the middleware, or the error *)
Definition JWT_middleware (cfg : JWT)
  : result (basculehttp.Middleware Client) :=
  try (toKeySet (KeyProvider cfg))
      (fun err => Join err (Errorf "error getting public keys"))
      (fun keys =>
  try (NewTokenParser keys)
      (fun err => Join err (Errorf "error creating token parser"))
      (fun jwtp =>
  try (NewAuthorizationParser
         [basculehttp.WithScheme basculehttp.SchemeBearer jwtp])
      (fun err => Join err (Errorf "error creating authorization parser"))
      (fun tp =>
  NewMiddleware (basculehttp.NewAuthenticator tp (JWT_valid cfg))))).

(* for _, opt := range opts { if opt != nil { ... } } *)
Fixpoint applyOpts (opts : list (option Option)) (auth : Auth)
  : result Auth :=
  match opts with
  | [] => Ok auth
  | None :: opts' => applyOpts opts' auth
  | Some opt :: opts' =>
      try (opt auth) id (fun auth => applyOpts opts' auth)
  end.

(* New creates a new Auth middleware. *)
Definition New (opts : list (option Option)) : result Auth :=
  let opts := opts ++ [Some validate] in
  try (applyOpts opts Auth_zero) id (fun auth =>
  try (match Config_Basic (config auth) with
       | Some _ =>
           try (Basic_middleware (Config_Basic (config auth)))
               (fun err =>
                  Join err (Errorf "error creating basic auth middleware"))
               (fun m => Ok {| middleware := Some m; config := config auth |})
       | None => Ok auth
       end) id (fun auth =>
  if negb (String.eqb (URL (KeyProvider (Config_JWT (config auth)))) "")
  then
    try (JWT_middleware (Config_JWT (config auth)))
        (fun err => Join err (Errorf "error creating jwt middleware"))
        (fun m => Ok {| middleware := Some m; config := config auth |})
  else Ok auth)).

(* func (auth *Auth) Protected() bool *)
Definition Protected (auth : Auth) : bool :=
  match middleware auth with Some _ => true | None => false end.

(* func (auth *Auth) Then(h http.HandlerFunc) http.Handler *)
Definition Then (auth : Auth) (h : http.Handler) : http.Handler :=
  match middleware auth with
  | None => h
  | Some m => ThenFunc m h
  end.

End Auth.

End apiauth.

(** ** internal/metrics: tags *)

Module metrics.

Definition GetUnknownTagIfEmpty (tag : string) : string :=
  if String.eqb tag "" then "unknown" else tag.

End metrics.

(** ** internal/loggerfx *)

Module loggerfx.

Definition deaultConfigPath : string := "logging".

(* for _, cp := range configPath { if cp != "" { path = cp; break } },
   with path the empty string when the loop never breaks *)
Fixpoint firstNonEmpty (configPath : list string) : string :=
  match configPath with
  | [] => ""
  | cp :: configPath' =>
      if negb (String.eqb cp "") then cp else firstNonEmpty configPath'
  end.

(* Module(configPath...): the path it hands to
   goschtalt.UnmarshalFunc[sallust.Config]; the fx options it builds
   around that path are the library's *)
Definition Module_path (configPath : list string) : string :=
  let configPath := configPath ++ [deaultConfigPath] in
  firstNonEmpty configPath.

End loggerfx.

(** ** internal/oker: the server and its options *)

Module oker.

Section Server.
(* eventor.Eventor[OkEventListener] and its zero value *)
Context {Eventor : Type} (Eventor_zero : Eventor).

Record Config : Type := {
  Name : string
}.

Record Server : Type := {
  config : Config;
  okEventListeners : Eventor
}.

(* Server{} *)
Definition Server_zero : Server :=
  {| config := {| Name := "" |}; okEventListeners := Eventor_zero |}.

(* Option: its apply method, as the updated server or the error *)
Definition Option : Type := Server -> result Server.

Definition WithConfig (c : Config) : Option :=
  fun s => Ok {| config := c; okEventListeners := okEventListeners s |}.

(* for _, opt := range opts { if opt != nil { ... } } *)
Fixpoint applyOpts (opts : list (option Option)) (s : Server)
  : result Server :=
  match opts with
  | [] => Ok s
  | None :: opts' => applyOpts opts' s
  | Some opt :: opts' =>
      try (opt s) id (fun s => applyOpts opts' s)
  end.

Definition New (opts : list (option Option)) : result Server :=
  applyOpts opts Server_zero.

End Server.
Arguments Server Eventor : clear implicits.
Arguments Option Eventor : clear implicits.

End oker.

(** * Vocabulary of the properties *)

Import jwk apiauth.

(* the key declares an algorithm: key.Algorithm().String() != "" *)
Definition declares (key : Key) : bool :=
  negb (String.eqb (jwa.String (Algorithm key)) "").

(* the post-processing can handle the key: it declares an algorithm, or
   inference gives it some *)
Definition processable (key : Key) : Prop :=
  declares key = true \/ is_Ok (keyToAlgs key) = true.

(* the clone of [key] that [Clone] makes at address [h], with [alg] set *)
Definition cloneWith (key : Key) (h : nat) (alg : jwa.SignatureAlgorithm)
  : Key :=
  {| ref := h; KeyID := KeyID key; KeyType := KeyType key;
     algorithm := Some (jwa.SigAlg alg); Raw := Raw key |}.

(* the clones made for [algs], at consecutive addresses from [h] *)
Fixpoint clones (key : Key) (algs : list jwa.SignatureAlgorithm) (h : nat)
  : list Key :=
  match algs with
  | [] => []
  | alg :: algs' => cloneWith key h alg :: clones key algs' (S h)
  end.

(* a key set as the library hands it over: its keys are distinct objects,
   all allocated before the next free address *)
Definition wf (keySet : Set_) (h : nat) : Prop :=
  NoDup (ref <$> keySet) /\ Forall (fun key => ref key < h) keySet.

(* the keys accumulated so far sit below the next free address *)
Definition below (h : nat) (s : Set_) : Prop :=
  Forall (fun key => ref key < h) s.

(* what the outer loop appends to its accumulator, and the next free address
   it leaves; it stops at the first key whose inference fails *)
Fixpoint outputs (keys : list Key) (h : nat) : result Set_ * nat :=
  match keys with
  | [] => (Ok [], h)
  | key :: keys' =>
      if declares key then
        match outputs keys' h with
        | (Ok out, h') => (Ok (key :: out), h')
        | (Err e, h') => (Err e, h')
        end
      else
        match keyToAlgs key with
        | Ok algs =>
            match outputs keys' (h + length algs) with
            | (Ok out, h') => (Ok (clones key algs h ++ out), h')
            | (Err e, h') => (Err e, h')
            end
        | Err e => (Err e, h)
        end
  end.

(* the curve of a raw ECDSA key, public or private: k.Curve *)
Definition Curve_of (raw : RawKey) : option elliptic.Curve :=
  match raw with
  | ecdsa_PublicKey curve _ _ => Some curve
  | ecdsa_PrivateKey curve _ _ _ => Some curve
  | _ => None
  end.

(* libraries for the examples: a client configuration that is its timeout,
   constructors that return what they are given, and a middleware that
   answers 401 to a request without an Authorization header *)
Definition example_libraries : External := {|
  ClientConfig := Z;
  ClientConfig_eq_dec := Z.eq_dec;
  ClientConfig_zero := 0%Z;
  Client := Z;
  NewClient := fun timeout => Ok timeout;
  Register := fun cache url opts => Ok ((url, opts) :: cache);
  NewTokenParser := fun keys => Ok (basculehttp.JWTTokenParser keys);
  NewAuthorizationParser := fun schemes => Ok schemes;
  NewMiddleware := fun a => Ok (basculehttp.mkMiddleware a);
  ThenFunc := fun m h req =>
    match http.Header req !! "Authorization" with
    | Some _ => h req
    | None => {| http.StatusCode := 401; http.Body := "" |}
    end
|}.

(* libraries for the examples of failures: a client with a negative timeout
   cannot be built, and no authorization parser is made for the Basic
   scheme *)
Definition refusing_libraries : External := {|
  ClientConfig := Z;
  ClientConfig_eq_dec := Z.eq_dec;
  ClientConfig_zero := 0%Z;
  Client := Z;
  NewClient := fun timeout =>
    if (timeout <? 0)%Z then Err (Library "arrangehttp" "negative timeout")
    else Ok timeout;
  Register := fun cache url opts => Ok ((url, opts) :: cache);
  NewTokenParser := fun keys => Ok (basculehttp.JWTTokenParser keys);
  NewAuthorizationParser := fun schemes =>
    if bool_decide (basculehttp.SchemeBasic ∈ schemes.*1)
    then Err (Library "basculehttp" "scheme refused")
    else Ok schemes;
  NewMiddleware := fun a => Ok (basculehttp.mkMiddleware a);
  ThenFunc := fun m h req => h req
|}.

Section AuthSpec.
Context `{External}.

(* Config{Disable: true}, the one configuration validate accepts with
   Disable set *)
Definition Config_disabled : Config :=
  {| Disable := true; Config_Basic := None; Config_JWT := JWT_zero |}.

(* the configurations validate refuses *)
Definition invalid (c : Config) : Prop :=
  (Disable c = true /\ c <> Config_disabled) \/ c = Config_zero.

(* the library constructors return what they were given when they succeed *)
Definition constructors_faithful : Prop :=
  (forall schemes tp, NewAuthorizationParser schemes = Ok tp -> tp = schemes) /\
  (forall a m, NewMiddleware a = Ok m -> basculehttp.UseAuthenticator m = a).

(* no library constructor returns an error *)
Definition constructors_succeed : Prop :=
  (forall cc, is_Ok (NewClient cc) = true) /\
  (forall cache url opts, is_Ok (Register cache url opts) = true) /\
  (forall keys, is_Ok (NewTokenParser keys) = true) /\
  (forall schemes, is_Ok (NewAuthorizationParser schemes) = true) /\
  (forall a, is_Ok (NewMiddleware a) = true).

(* what New does with a single WithConfig option once validation passed *)
Definition construct (c : Config) : result Auth :=
  try (match Config_Basic c with
       | Some _ =>
           try (Basic_middleware (Config_Basic c))
               (fun err =>
                  Join err (Errorf "error creating basic auth middleware"))
               (fun m => Ok {| middleware := Some m; config := c |})
       | None => Ok {| middleware := None; config := c |}
       end) id (fun auth =>
  if negb (String.eqb (URL (KeyProvider (Config_JWT (config auth)))) "")
  then
    try (JWT_middleware (Config_JWT (config auth)))
        (fun err => Join err (Errorf "error creating jwt middleware"))
        (fun m => Ok {| middleware := Some m; config := config auth |})
  else Ok auth).

End AuthSpec.

(* how many entries the post-processing makes of a key: the key itself when
   it declares an algorithm, one clone for each inferred algorithm
   otherwise *)
Definition copies (key : Key) : nat :=
  if declares key then 1
  else match keyToAlgs key with
       | Ok algs => length algs
       | Err _ => 0
       end.

(* what a clone keeps of its source: key-id, key type and key material *)
Definition identity (key : Key) : string * jwa.KeyType * result RawKey :=
  (KeyID key, KeyType key, Raw key).

(* the curves keyToAlgs knows *)
Definition supported_curve (curve : elliptic.Curve) : Prop :=
  curve = elliptic.P256 \/ curve = elliptic.P384 \/ curve = elliptic.P521.

(* the options a caller of New can build: nil, or WithConfig of some
   configuration *)
Definition configOptions `{External} (cs : list (option Config))
  : list (option Option) :=
  (fun oc : option Config =>
     match oc with
     | Some c => Some (WithConfig c)
     | None => None
     end) <$> cs.

(* the configuration the last WithConfig option carries, if there is one *)
Definition lastConfig `{External} (cs : list (option Config)) : option Config :=
  last (omap id cs).

(** * Properties *)

(** ** The key-set post-processing of mapAlgs.go *)

Lemma below_mono h h' s : h <= h' -> below h s -> below h' s.
Proof.
  unfold below. intros Hle Hs.
  eapply Forall_impl; [exact Hs|]. simpl. intros; lia.
Qed.

Lemma below_not_elem h s key : below h s -> h <= ref key -> ref key ∉ ref <$> s.
Proof.
  unfold below. intros Hs Hle Hin.
  apply list_elem_of_fmap in Hin as (k' & Heq & Hk').
  rewrite Forall_forall in Hs. specialize (Hs k' Hk'). lia.
Qed.

Lemma AddKey_fresh s key :
  ref key ∉ ref <$> s -> AddKey s key = Ok (s ++ [key]).
Proof.
  intros Hn. unfold AddKey. rewrite bool_decide_eq_false_2; auto.
Qed.

Lemma clones_length key algs h : length (clones key algs h) = length algs.
Proof. revert h. induction algs; simpl; intros; auto. Qed.

Lemma clones_refs key algs h :
  Forall (fun d => h <= ref d < h + length algs) (clones key algs h).
Proof.
  revert h. induction algs as [|alg algs IH]; simpl; intros h; constructor.
  - simpl. lia.
  - eapply Forall_impl; [apply IH|]. simpl. intros; lia.
Qed.

(* the inner loop, run above everything accumulated, cannot fail *)
Lemma addClones_ok key algs : forall newKeys h,
  below h newKeys ->
  addClones key algs newKeys h =
    (Ok (newKeys ++ clones key algs h), h + length algs).
Proof.
  induction algs as [|alg algs IH]; intros newKeys h Hb; simpl.
  - unfold ret. rewrite app_nil_r. f_equal. lia.
  - unfold bind, Clone, lift, Set_AlgorithmKey. simpl.
    rewrite AddKey_fresh.
    2:{ apply below_not_elem with (h := h); simpl; auto. }
    rewrite IH.
    + rewrite <- app_assoc. simpl. unfold cloneWith. f_equal. lia.
    + unfold below. apply Forall_app. split.
      * apply below_mono with (h := h); auto.
      * constructor; simpl; auto.
Qed.

(* the outer loop on distinct keys allocated below [h], none of them
   accumulated yet: no AddKey fails *)
Lemma eachKey_outputs keys : forall newKeys h,
  NoDup (ref <$> keys) ->
  Forall (fun key => ref key < h) keys ->
  below h newKeys ->
  (forall key, key ∈ keys -> ref key ∉ ref <$> newKeys) ->
  eachKey keys newKeys h =
    match outputs keys h with
    | (Ok out, h') => (Ok (newKeys ++ out), h')
    | (Err e, h') => (Err e, h')
    end.
Proof.
  induction keys as [|key keys IH]; intros newKeys h Hnd Hlt Hb Hfresh.
  - simpl. unfold ret. by rewrite app_nil_r.
  - rewrite fmap_cons in Hnd. apply NoDup_cons in Hnd as [Hk Hnd].
    apply Forall_cons in Hlt as [Hklt Hlt].
    simpl. fold (declares key). destruct (declares key) eqn:Hd.
    + unfold bind, lift. rewrite AddKey_fresh.
      2:{ apply Hfresh. left. }
      rewrite IH; auto.
      * destruct (outputs keys h) as [[out|e] h']; auto.
        by rewrite <- app_assoc.
      * apply Forall_app. split; auto.
      * intros k' Hk' Hin. rewrite fmap_app in Hin.
        apply elem_of_app in Hin as [Hin|Hin].
        -- eapply Hfresh; [right; exact Hk'|exact Hin].
        -- simpl in Hin. apply list_elem_of_singleton in Hin.
           apply Hk. rewrite <- Hin. apply list_elem_of_fmap. eauto.
    + unfold bind at 1. unfold lift at 1.
      destruct (keyToAlgs key) as [algs|e]; auto.
      unfold bind. rewrite addClones_ok; auto.
      rewrite IH; auto.
      * destruct (outputs keys (h + length algs)) as [[out|e] h']; auto.
        by rewrite <- app_assoc.
      * eapply Forall_impl; [exact Hlt|]. simpl. intros; lia.
      * apply Forall_app. split.
        -- apply below_mono with (h := h); auto. lia.
        -- eapply Forall_impl; [apply clones_refs|]. simpl. intros; lia.
      * intros k' Hk' Hin. rewrite fmap_app in Hin.
        apply elem_of_app in Hin as [Hin|Hin].
        -- eapply Hfresh; [right; exact Hk'|exact Hin].
        -- apply list_elem_of_fmap in Hin as (d & Heq & Hd').
           pose proof (clones_refs key algs h) as Hc.
           rewrite Forall_forall in Hc. specialize (Hc d Hd').
           rewrite Forall_forall in Hlt. specialize (Hlt k' Hk'). lia.
Qed.

(* the post-fetch function on a well-formed key set *)
Lemma mapMissingAlgorithms_outputs url keySet h :
  wf keySet h ->
  mapMissingAlgorithms url keySet h =
    match outputs keySet h with
    | (Ok out, h') => ((out, None), h')
    | (Err e, h') => ((keySet, Some e), h')
    end.
Proof.
  intros [Hnd Hlt]. unfold mapMissingAlgorithms, NewSet.
  rewrite eachKey_outputs; auto.
  - destruct (outputs keySet h) as [[out|e] h']; auto.
  - constructor.
  - intros key _ Hin. simpl in Hin. by apply elem_of_nil in Hin.
Qed.

Lemma outputs_app pre post h :
  outputs (pre ++ post) h =
    match outputs pre h with
    | (Ok out1, h1) =>
        match outputs post h1 with
        | (Ok out2, h') => (Ok (out1 ++ out2), h')
        | (Err e, h') => (Err e, h')
        end
    | (Err e, h1) => (Err e, h1)
    end.
Proof.
  revert h. induction pre as [|key pre IH]; intros h; simpl.
  - destruct (outputs post h) as [[out|e] h']; auto.
  - destruct (declares key).
    + rewrite IH. destruct (outputs pre h) as [[out1|e] h1]; auto.
      destruct (outputs post h1) as [[out2|e] h']; auto.
    + destruct (keyToAlgs key) as [algs|e]; auto.
      rewrite IH.
      destruct (outputs pre (h + length algs)) as [[out1|e] h1]; auto.
      destruct (outputs post h1) as [[out2|e] h']; auto.
      by rewrite <- app_assoc.
Qed.

Lemma outputs_ok keys : forall h,
  Forall processable keys -> exists out h', outputs keys h = (Ok out, h').
Proof.
  induction keys as [|key keys IH]; intros h Hp; simpl.
  - eauto.
  - apply Forall_cons in Hp as [Hk Hp].
    destruct (declares key) eqn:Hd.
    + destruct (IH h Hp) as (out & h' & ->). eauto.
    + destruct Hk as [Hk|Hk]; [congruence|].
      destruct (keyToAlgs key) as [algs|e]; [|discriminate].
      destruct (IH (h + length algs) Hp) as (out & h' & ->). eauto.
Qed.

(* every output is a declared input key or a clone allocated by the run *)
Lemma outputs_refs keys : forall h out h',
  outputs keys h = (Ok out, h') ->
  h <= h' /\
  Forall (fun d => d ∈ keys \/ h <= ref d < h') out.
Proof.
  induction keys as [|key keys IH]; intros h out h' Hrun; simpl in Hrun.
  - inversion Hrun; subst. split; [lia|constructor].
  - destruct (declares key).
    + destruct (outputs keys h) as [[out0|e] h0] eqn:Hrec; inversion Hrun; subst.
      destruct (IH _ _ _ Hrec) as [Hle Hall]. split; auto.
      constructor; [left; left|].
      eapply Forall_impl; [exact Hall|]. simpl.
      intros d [Hd|Hd]; [left; by right|right; lia].
    + destruct (keyToAlgs key) as [algs|e]; [|discriminate].
      destruct (outputs keys (h + length algs)) as [[out0|e] h0] eqn:Hrec;
        inversion Hrun; subst.
      destruct (IH _ _ _ Hrec) as [Hle Hall]. split; [lia|].
      apply Forall_app. split.
      * eapply Forall_impl; [apply clones_refs|]. simpl. intros; right; lia.
      * eapply Forall_impl; [exact Hall|]. simpl.
        intros d [Hd|Hd]; [left; by right|right; lia].
Qed.

Lemma wf_app_inv pre key post h :
  wf (pre ++ key :: post) h ->
  wf pre h /\ wf post h /\ ref key < h /\
  (ref key ∉ ref <$> pre) /\ (ref key ∉ ref <$> post).
Proof.
  intros [Hnd Hlt]. rewrite fmap_app, fmap_cons in Hnd.
  apply NoDup_app in Hnd as (Hpre & Hdisj & Hrest).
  apply NoDup_cons in Hrest as [Hk Hpost].
  apply Forall_app in Hlt as [Hlpre Hlrest].
  apply Forall_cons in Hlrest as [Hklt Hlpost].
  repeat split; auto.
  intros Hin. apply (Hdisj _ Hin). left.
Qed.

Lemma wf_mono keys h h' : h <= h' -> wf keys h -> wf keys h'.
Proof. intros Hle [Hnd Hlt]. split; auto. by apply below_mono with (h := h). Qed.

(* a run over part of a well-formed set leaves no input key among what it
   made of the other part *)
Lemma outputs_avoid keys key h0 h out h' :
  outputs keys h = (Ok out, h') ->
  ref key ∉ ref <$> keys -> ref key < h0 -> h0 <= h ->
  ref key ∉ ref <$> out.
Proof.
  intros Hrun Hnot Hlt Hle Hin.
  apply list_elem_of_fmap in Hin as (d & Heq & Hd).
  destruct (outputs_refs _ _ _ _ Hrun) as [_ Hall].
  rewrite Forall_forall in Hall. destruct (Hall d Hd) as [Hk|Hr].
  - apply Hnot. rewrite Heq. apply list_elem_of_fmap. eauto.
  - lia.
Qed.

Lemma clones_fields key algs : forall h,
  Forall (fun d => KeyID d = KeyID key /\ KeyType d = KeyType key /\
                   Raw d = Raw key) (clones key algs h).
Proof.
  induction algs as [|alg algs IH]; intros h; simpl; constructor; auto.
Qed.

Lemma clones_algorithms key algs : forall h,
  Algorithm <$> clones key algs h = jwa.SigAlg <$> algs.
Proof.
  induction algs as [|alg algs IH]; intros h; simpl; auto.
  f_equal. apply IH.
Qed.

(* keyToAlgs hands on the error of key.Raw for an EC key *)
Lemma keyToAlgs_Raw_error key err :
  KeyType key = jwa.EC -> Raw key = Err err -> keyToAlgs key = Err err.
Proof. intros Hkt Hraw. unfold keyToAlgs. by rewrite Hkt, Hraw. Qed.

(** C5: algorithm inference ([keyToAlgs]) gives an OKP key exactly EdDSA;
    gives an EC key the one algorithm of its curve, ES256 for P-256, ES384
    for P-384 and ES512 for P-521, and the "unsupported key type" error on
    any other curve; and gives a key whose type is none of RSA, OKP and EC
    the "unsupported key type" error. *)
Theorem keyToAlgs_by_type_and_curve (key : Key) :
  (KeyType key = jwa.OKP -> keyToAlgs key = Ok [jwa.EdDSA]) /\
  (KeyType key = jwa.EC ->
   forall raw curve, Raw key = Ok raw -> Curve_of raw = Some curve ->
     keyToAlgs key =
       match curve with
       | elliptic.P256 => Ok [jwa.ES256]
       | elliptic.P384 => Ok [jwa.ES384]
       | elliptic.P521 => Ok [jwa.ES512]
       | _ => Err (Errorf ("unsupported key type " +:+ jwa.EC))
       end) /\
  (KeyType key <> jwa.RSA -> KeyType key <> jwa.OKP ->
   KeyType key <> jwa.EC ->
   keyToAlgs key = Err (Errorf ("unsupported key type " +:+ KeyType key))).
Proof.
  unfold keyToAlgs. repeat split.
  - intros ->. reflexivity.
  - intros -> raw curve -> Hc. simpl.
    destruct raw; simpl in Hc; try discriminate;
      inversion Hc; subst; destruct curve; reflexivity.
  - intros H1 H2 H3.
    rewrite !bool_decide_eq_false_2; auto.
Qed.

Lemma keyToAlgs_by_type_and_curve_witness :
  keyToAlgs (mkKey 0 "ed" jwa.OKP None (Ok (other_raw "x"))) = Ok [jwa.EdDSA] /\
  keyToAlgs (mkKey 1 "ec" jwa.EC None (Ok (ecdsa_PublicKey elliptic.P384 5 7)))
    = Ok [jwa.ES384] /\
  keyToAlgs (mkKey 2 "ec" jwa.EC None (Ok (ecdsa_PrivateKey elliptic.P224 5 7 9)))
    = Err (Errorf "unsupported key type EC") /\
  keyToAlgs (mkKey 3 "hmac" jwa.OctetSeq None (Ok (other_raw "secret")))
    = Err (Errorf "unsupported key type oct").
Proof.
  split; [|split; [|split]].
  - apply (keyToAlgs_by_type_and_curve
             (mkKey 0 "ed" jwa.OKP None (Ok (other_raw "x")))). reflexivity.
  - apply (proj1 (proj2 (keyToAlgs_by_type_and_curve
             (mkKey 1 "ec" jwa.EC None (Ok (ecdsa_PublicKey elliptic.P384 5 7)))))
             eq_refl _ elliptic.P384 eq_refl eq_refl).
  - apply (proj1 (proj2 (keyToAlgs_by_type_and_curve
             (mkKey 2 "ec" jwa.EC None
                (Ok (ecdsa_PrivateKey elliptic.P224 5 7 9)))))
             eq_refl _ elliptic.P224 eq_refl eq_refl).
  - apply (proj2 (proj2 (keyToAlgs_by_type_and_curve
             (mkKey 3 "hmac" jwa.OctetSeq None (Ok (other_raw "secret"))))));
      simpl; discriminate.
Defined.

(* on a set whose keys all declare an algorithm the mapping is the
   identity: applying it again changes nothing *)
Lemma mapMissingAlgorithms_all_declared url keySet h :
  wf keySet h ->
  Forall (fun key => declares key = true) keySet ->
  mapMissingAlgorithms url keySet h = ((keySet, None), h).
Proof.
  intros Hwf Hall. rewrite mapMissingAlgorithms_outputs by exact Hwf.
  assert (Hout : outputs keySet h = (Ok keySet, h)); [|by rewrite Hout].
  clear Hwf. induction Hall as [|key keys Hd _ IH]; simpl; auto.
  by rewrite Hd, IH.
Qed.

(* the runs over the two sides of a key in a well-formed, processable set *)
Lemma outputs_sides pre key post h n :
  wf (pre ++ key :: post) h ->
  Forall processable pre -> Forall processable post ->
  exists out_pre h1 out_post h',
    outputs pre h = (Ok out_pre, h1) /\
    outputs post (h1 + n) = (Ok out_post, h') /\
    h <= h1 /\
    (ref key ∉ ref <$> out_pre) /\ (ref key ∉ ref <$> out_post).
Proof.
  intros Hwf Hpre Hpost.
  destruct (wf_app_inv _ _ _ _ Hwf) as (_ & _ & Hlt & Hnpre & Hnpost).
  destruct (outputs_ok pre h Hpre) as (out_pre & h1 & Hrun1).
  destruct (outputs_ok post (h1 + n) Hpost) as (out_post & h' & Hrun2).
  destruct (outputs_refs _ _ _ _ Hrun1) as [Hle _].
  exists out_pre, h1, out_post, h'. repeat split; auto.
  - eapply outputs_avoid; eauto.
  - eapply (outputs_avoid post key h (h1 + n)); eauto. lia.
Qed.

(** C4: post-fetch processing ([mapMissingAlgorithms]) replaces an RSA key
    that declares no algorithm by exactly six entries, one for each of
    RS256, RS384, RS512, PS256, PS384 and PS512 in that order; each entry is
    a fresh clone with the key-id, key type and key material of the source
    key, so it differs from it in the algorithm only.  The entries stand
    where the key stood, between what the processing makes of the keys
    before it and of the keys after it. *)
Theorem mapMissingAlgorithms_RSA_six_entries
    (url : string) (pre : list Key) (key : Key) (post : list Key) (h : nat) :
  wf (pre ++ key :: post) h ->
  KeyType key = jwa.RSA ->
  declares key = false ->
  Forall processable pre -> Forall processable post ->
  exists out_pre h1 six out_post h',
    mapMissingAlgorithms url pre h = ((out_pre, None), h1) /\
    mapMissingAlgorithms url post (h1 + 6) = ((out_post, None), h') /\
    mapMissingAlgorithms url (pre ++ key :: post) h =
      ((out_pre ++ six ++ out_post, None), h') /\
    length six = 6 /\
    Algorithm <$> six =
      jwa.SigAlg <$> [jwa.RS256; jwa.RS384; jwa.RS512;
                      jwa.PS256; jwa.PS384; jwa.PS512] /\
    Forall (fun d => KeyID d = KeyID key /\ KeyType d = KeyType key /\
                     Raw d = Raw key /\ ref d <> ref key) six.
Proof.
  intros Hwf Hkt Hd Hpre Hpost.
  destruct (outputs_sides pre key post h 6 Hwf Hpre Hpost)
    as (out_pre & h1 & out_post & h' & Hrun1 & Hrun2 & Hle & _ & _).
  destruct (wf_app_inv _ _ _ _ Hwf) as (Hwpre & Hwpost & Hlt & _ & _).
  set (algs := [jwa.RS256; jwa.RS384; jwa.RS512;
                jwa.PS256; jwa.PS384; jwa.PS512]).
  assert (Halgs : keyToAlgs key = Ok algs).
  { unfold keyToAlgs. by rewrite Hkt. }
  exists out_pre, h1, (clones key algs h1), out_post, h'.
  split; [|split; [|split; [|split; [|split]]]].
  - rewrite mapMissingAlgorithms_outputs by exact Hwpre. by rewrite Hrun1.
  - rewrite mapMissingAlgorithms_outputs.
    + by rewrite Hrun2.
    + apply wf_mono with (h := h); [lia|exact Hwpost].
  - rewrite mapMissingAlgorithms_outputs by exact Hwf.
    rewrite outputs_app, Hrun1. simpl. rewrite Hd, Halgs.
    change (length algs) with 6. by rewrite Hrun2.
  - by rewrite clones_length.
  - apply clones_algorithms.
  - pose proof (clones_fields key algs h1) as Hf.
    pose proof (clones_refs key algs h1) as Hr.
    rewrite Forall_forall in Hf, Hr. apply Forall_forall. intros d Hin.
    destruct (Hf d Hin) as (? & ? & ?). specialize (Hr d Hin).
    repeat split; auto. lia.
Qed.

(* a private RSA key without "alg" between a tagged EC key and an untagged
   OKP key *)
Lemma mapMissingAlgorithms_RSA_six_entries_witness :
  let ec := mkKey 0 "k-ec" jwa.EC (Some (jwa.SigAlg jwa.ES256))
              (Ok (ecdsa_PublicKey elliptic.P256 5 7)) in
  let rsa := mkKey 1 "k-rsa" jwa.RSA None (Ok (rsa_PrivateKey 3233 17 2753)) in
  let okp := mkKey 2 "k-okp" jwa.OKP None (Ok (other_raw "ed25519")) in
  exists out_pre h1 six out_post h',
    mapMissingAlgorithms "localhost" [ec] 3 = ((out_pre, None), h1) /\
    mapMissingAlgorithms "localhost" [okp] (h1 + 6) = ((out_post, None), h') /\
    mapMissingAlgorithms "localhost" ([ec] ++ rsa :: [okp]) 3 =
      ((out_pre ++ six ++ out_post, None), h') /\
    length six = 6 /\
    Algorithm <$> six =
      jwa.SigAlg <$> [jwa.RS256; jwa.RS384; jwa.RS512;
                      jwa.PS256; jwa.PS384; jwa.PS512] /\
    Forall (fun d => KeyID d = KeyID rsa /\ KeyType d = KeyType rsa /\
                     Raw d = Raw rsa /\ ref d <> ref rsa) six.
Proof.
  intros ec rsa okp.
  apply (mapMissingAlgorithms_RSA_six_entries "localhost" [ec] rsa [okp] 3).
  - split.
    + apply (bool_decide_unpack _). vm_compute. exact I.
    + repeat constructor.
  - reflexivity.
  - reflexivity.
  - constructor; [left; reflexivity|constructor].
  - constructor; [right; reflexivity|constructor].
Defined.

(** C6: a key that already declares a non-empty algorithm is added to the
    output of the post-fetch mapping as the very same object, unchanged,
    and exactly once: the output is what the mapping makes of the keys
    before it, then the key itself, then what it makes of the keys after
    it, and no other output entry is that object.  Nothing is asked of the
    key's type or material, which inference would inspect. *)
Theorem mapMissingAlgorithms_declared_key_unchanged
    (url : string) (pre : list Key) (key : Key) (post : list Key) (h : nat) :
  wf (pre ++ key :: post) h ->
  declares key = true ->
  Forall processable pre -> Forall processable post ->
  exists out_pre h1 out_post h',
    mapMissingAlgorithms url pre h = ((out_pre, None), h1) /\
    mapMissingAlgorithms url post h1 = ((out_post, None), h') /\
    mapMissingAlgorithms url (pre ++ key :: post) h =
      ((out_pre ++ key :: out_post, None), h') /\
    (ref key ∉ ref <$> out_pre ++ out_post).
Proof.
  intros Hwf Hd Hpre Hpost.
  destruct (outputs_sides pre key post h 0 Hwf Hpre Hpost)
    as (out_pre & h1 & out_post & h' & Hrun1 & Hrun2 & Hle & Hn1 & Hn2).
  rewrite Nat.add_0_r in Hrun2.
  destruct (wf_app_inv _ _ _ _ Hwf) as (Hwpre & Hwpost & Hlt & _ & _).
  exists out_pre, h1, out_post, h'.
  split; [|split; [|split]].
  - rewrite mapMissingAlgorithms_outputs by exact Hwpre. by rewrite Hrun1.
  - rewrite mapMissingAlgorithms_outputs.
    + by rewrite Hrun2.
    + apply wf_mono with (h := h); [lia|exact Hwpost].
  - rewrite mapMissingAlgorithms_outputs by exact Hwf.
    rewrite outputs_app, Hrun1. simpl. by rewrite Hd, Hrun2.
  - rewrite fmap_app. intros Hin. apply elem_of_app in Hin as [Hin|Hin]; auto.
Qed.

(* a tagged symmetric key, which inference would refuse, between an
   untagged OKP key and a tagged EC key *)
Lemma mapMissingAlgorithms_declared_key_unchanged_witness :
  let okp := mkKey 0 "k-okp" jwa.OKP None (Ok (other_raw "ed25519")) in
  let oct := mkKey 1 "k-oct" jwa.OctetSeq (Some (jwa.SigAlg "HS256"))
               (Ok (other_raw "secret")) in
  let ec := mkKey 2 "k-ec" jwa.EC (Some (jwa.SigAlg jwa.ES256))
              (Ok (ecdsa_PublicKey elliptic.P256 5 7)) in
  is_Ok (keyToAlgs oct) = false /\
  exists out_pre h1 out_post h',
    mapMissingAlgorithms "localhost" [okp] 3 = ((out_pre, None), h1) /\
    mapMissingAlgorithms "localhost" [ec] h1 = ((out_post, None), h') /\
    mapMissingAlgorithms "localhost" ([okp] ++ oct :: [ec]) 3 =
      ((out_pre ++ oct :: out_post, None), h') /\
    (ref oct ∉ ref <$> out_pre ++ out_post).
Proof.
  intros okp oct ec. split; [reflexivity|].
  apply (mapMissingAlgorithms_declared_key_unchanged
           "localhost" [okp] oct [ec] 3).
  - split.
    + apply (bool_decide_unpack _). vm_compute. exact I.
    + repeat constructor.
  - reflexivity.
  - constructor; [right; reflexivity|constructor].
  - constructor; [left; reflexivity|constructor].
Defined.

(** C2 (as the code has it): when inference fails for a key that declares no
    algorithm, and the keys before it could all be processed, the post-fetch
    processing stops at that key and returns the key's error together with
    the key set it was given, unchanged: no key is dropped and the keys
    after it are not processed. *)
Theorem mapMissingAlgorithms_inference_failure_returns_error
    (url : string) (pre : list Key) (key : Key) (post : list Key) (h : nat)
    (err : error) :
  wf (pre ++ key :: post) h ->
  Forall processable pre ->
  declares key = false ->
  keyToAlgs key = Err err ->
  exists h',
    mapMissingAlgorithms url (pre ++ key :: post) h =
      ((pre ++ key :: post, Some err), h').
Proof.
  intros Hwf Hpre Hd Herr.
  destruct (outputs_ok pre h Hpre) as (out_pre & h1 & Hrun1).
  exists h1. rewrite mapMissingAlgorithms_outputs by exact Hwf.
  rewrite outputs_app, Hrun1. simpl. by rewrite Hd, Herr.
Qed.

(* an untagged symmetric key after a tagged RSA key and before an untagged
   OKP key *)
Lemma mapMissingAlgorithms_inference_failure_returns_error_witness :
  let rsa := mkKey 0 "k-rsa" jwa.RSA (Some (jwa.SigAlg jwa.RS256))
               (Ok (rsa_PublicKey 3233 17)) in
  let oct := mkKey 1 "k-oct" jwa.OctetSeq None (Ok (other_raw "secret")) in
  let okp := mkKey 2 "k-okp" jwa.OKP None (Ok (other_raw "ed25519")) in
  exists h',
    mapMissingAlgorithms "localhost" ([rsa] ++ oct :: [okp]) 3 =
      (([rsa] ++ oct :: [okp], Some (Errorf "unsupported key type oct")), h').
Proof.
  intros rsa oct okp.
  apply (mapMissingAlgorithms_inference_failure_returns_error
           "localhost" [rsa] oct [okp] 3).
  - split.
    + apply (bool_decide_unpack _). vm_compute. exact I.
    + repeat constructor.
  - constructor; [left; reflexivity|constructor].
  - reflexivity.
  - reflexivity.
Defined.

(** C2, counterexample: a key set of an untagged symmetric key, for which
    inference fails, and a tagged RSA key.  The post-fetch processing does
    not drop the first and keep the second: it returns the error, with the
    set it was given. *)
Lemma mapMissingAlgorithms_does_not_drop_failing_key :
  let oct := mkKey 0 "k-oct" jwa.OctetSeq None (Ok (other_raw "secret")) in
  let rsa := mkKey 1 "k-rsa" jwa.RSA (Some (jwa.SigAlg jwa.RS256))
               (Ok (rsa_PublicKey 3233 17)) in
  wf [oct; rsa] 2 /\
  keyToAlgs oct = Err (Errorf "unsupported key type oct") /\
  declares rsa = true /\
  mapMissingAlgorithms "localhost" [oct; rsa] 2 =
    (([oct; rsa], Some (Errorf "unsupported key type oct")), 2) /\
  ~ (exists out h',
       mapMissingAlgorithms "localhost" [oct; rsa] 2 = ((out, None), h')).
Proof.
  intros oct rsa. split; [|split; [|split; [|split]]].
  - split.
    + apply (bool_decide_unpack _). vm_compute. exact I.
    + repeat constructor.
  - reflexivity.
  - reflexivity.
  - reflexivity.
  - intros (out & h' & Heq). vm_compute in Heq. discriminate.
Qed.

(** ** The auth file and options.go *)

Section AuthProofs.
Context `{External}.

(** *** Capability authorization *)

Lemma existsb_elem_of {A} (f : A -> bool) (l : list A) :
  existsb f l = true <-> exists x, x ∈ l /\ f x = true.
Proof.
  rewrite existsb_exists. split; intros (x & Hin & Hf); exists x; split; auto;
    by apply list_elem_of_In.
Qed.

Lemma capability_match (required capabilities : list string) :
  existsb (fun capability =>
             existsb (fun serviceCapability =>
                        bool_decide (capability = serviceCapability)) required)
          capabilities = true <->
  exists c, c ∈ capabilities /\ c ∈ required.
Proof.
  rewrite existsb_elem_of. split.
  - intros (c & Hc & Hex). apply existsb_elem_of in Hex as (r & Hr & Heq).
    apply bool_decide_eq_true in Heq. subst r. eauto.
  - intros (c & Hc & Hr). exists c. split; auto.
    apply existsb_elem_of. exists c. split; auto.
    by apply bool_decide_eq_true.
Qed.

(** C1: the capability check of a JWT token ([JWT.valid] on claims) allows
    (returns nil) when no capability is required; otherwise it allows if
    and only if some capability of the token equals some required
    capability, one match being enough; and when no capability of the token
    is among the required ones it returns ErrUnauthorized. *)
Theorem JWT_valid_any_required_capability
    (cfg : JWT) (subject : string) (capabilities : list string) :
  let required := elems (RequiredServiceCapabilities cfg) in
  let token := bascule.Claims subject capabilities in
  (required = [] -> JWT_valid cfg token = None) /\
  (required <> [] ->
   (JWT_valid cfg token = None <->
    exists c, c ∈ capabilities /\ c ∈ required)) /\
  (required <> [] ->
   (forall c, c ∈ capabilities -> c ∉ required) ->
   JWT_valid cfg token = Some bascule.ErrUnauthorized).
Proof.
  intros required token. unfold token, JWT_valid. fold required. simpl.
  pose proof (capability_match required capabilities) as Hm.
  destruct required as [|r required'] eqn:Hreq; simpl length; simpl Nat.eqb.
  - split; [done|]. split; intros Hne; congruence.
  - split; [discriminate|]. rewrite <- Hreq in *. clear Hreq.
    destruct (existsb _ capabilities) eqn:Hex.
    + split; intros _.
      * split; [intros _; by apply Hm|done].
      * intros Hdisj. destruct (proj1 Hm eq_refl) as (c & Hc & Hr).
        by destruct (Hdisj c Hc).
    + split; intros _.
      * split; [discriminate|]. intros Hc. apply Hm in Hc. discriminate.
      * done.
Qed.

(** *** Basic auth validation *)

Lemma Basic_valid_lookup (cfg : Basic) (u p : string) :
  Basic_valid cfg (bascule.BasicToken u p) =
    if bool_decide (default ∅ cfg !! u = Some p) then None
    else Some bascule.ErrBadCredentials.
Proof.
  unfold Basic_valid.
  destruct (existsb _ (map_to_list (default ∅ cfg))) eqn:Hex.
  - apply existsb_elem_of in Hex as ([u' p'] & Hin & Heq).
    apply andb_true_iff in Heq as [Hu Hp].
    apply bool_decide_eq_true in Hu, Hp. subst u' p'.
    apply elem_of_map_to_list in Hin. by rewrite bool_decide_eq_true_2.
  - rewrite bool_decide_eq_false_2; auto. intros Hl.
    assert (Ht : existsb
              (fun '(u', p') => bool_decide (u = u') && bool_decide (p = p'))
              (map_to_list (default ∅ cfg)) = true); [|congruence].
    apply existsb_elem_of. exists (u, p). split.
    + by apply elem_of_map_to_list.
    + by rewrite !bool_decide_eq_true_2.
Qed.

(** C8: basic-auth validation ([Basic.valid]) against the configured
    table of usernames and passwords succeeds (returns nil) for a pair that
    is an entry of the table, and returns the one error ErrBadCredentials
    for every other pair, both when the username is not in the table and
    when the table has another password for it. *)
Theorem Basic_valid_uniform_failure (cfg : Basic) (u p : string) :
  (default ∅ cfg !! u = Some p ->
   Basic_valid cfg (bascule.BasicToken u p) = None) /\
  (default ∅ cfg !! u = None ->
   Basic_valid cfg (bascule.BasicToken u p) = Some bascule.ErrBadCredentials) /\
  (forall p', default ∅ cfg !! u = Some p' -> p' <> p ->
   Basic_valid cfg (bascule.BasicToken u p) = Some bascule.ErrBadCredentials).
Proof.
  rewrite Basic_valid_lookup. split; [|split].
  - intros Hl. by rewrite bool_decide_eq_true_2.
  - intros Hl. rewrite bool_decide_eq_false_2; [done|congruence].
  - intros p' Hl Hne. rewrite bool_decide_eq_false_2; [done|congruence].
Qed.

(** *** Construction *)

Lemma validate_invalid (a : Auth) :
  invalid (config a) ->
  exists msg, validate a = Err (Errorf_w ErrInvalidConfig msg).
Proof.
  unfold invalid, validate, DeepEqual. fold Config_disabled.
  intros [[Hd Hne]|Hz].
  - rewrite Hd. rewrite bool_decide_eq_false_2 by exact Hne. simpl. eauto.
  - rewrite Hz. simpl. rewrite bool_decide_eq_true_2 by reflexivity. eauto.
Qed.

Lemma validate_valid (a : Auth) :
  ~ invalid (config a) -> validate a = Ok a.
Proof.
  unfold invalid, validate, DeepEqual. fold Config_disabled. intros Hv.
  destruct (Disable (config a)) eqn:Hd; simpl.
  - destruct (decide (config a = Config_disabled)) as [Heq|Hne].
    + rewrite bool_decide_eq_true_2 by exact Heq. simpl.
      rewrite bool_decide_eq_false_2; [done|].
      rewrite Heq. discriminate.
    + exfalso. apply Hv. left. auto.
  - rewrite bool_decide_eq_false_2; [done|]. intros Hz. apply Hv. by right.
Qed.

(* the valid configurations, spelled out *)
Lemma valid_combinations (c : Config) :
  ~ invalid c <->
  c = Config_disabled \/
  (Disable c = false /\ (Config_Basic c <> None \/ Config_JWT c <> JWT_zero)).
Proof.
  unfold invalid. split.
  - intros Hv. destruct (Disable c) eqn:Hd.
    + left. destruct (decide (c = Config_disabled)) as [Heq|Hne]; auto.
      exfalso. apply Hv. left. auto.
    + right. split; auto.
      destruct (decide (Config_Basic c = None)) as [Hb|Hb]; [|by left].
      destruct (decide (Config_JWT c = JWT_zero)) as [Hj|Hj]; [|by right].
      exfalso. apply Hv. right. destruct c. simpl in *. by subst.
  - intros [Heq|[Hd Hpop]] [[Hd' Hne]|Hz]; subst; simpl in *; try congruence.
    + discriminate.
    + destruct Hpop as [Hb|Hj]; [apply Hb|apply Hj]; reflexivity.
Qed.

Lemma New_WithConfig (c : Config) :
  New [Some (WithConfig c)] =
    try (validate {| middleware := None; config := c |}) id
        (fun _ => construct c).
Proof.
  unfold New, construct. simpl. unfold validate. simpl.
  repeat (match goal with |- context [if ?b then _ else _] => destruct b end;
          simpl; try reflexivity).
Qed.

Lemma New_invalid (c : Config) :
  invalid c ->
  exists msg, New [Some (WithConfig c)] = Err (Errorf_w ErrInvalidConfig msg).
Proof.
  intros Hi. rewrite New_WithConfig.
  destruct (validate_invalid {| middleware := None; config := c |} Hi)
    as (msg & ->).
  simpl. eauto.
Qed.

Lemma New_valid (c : Config) :
  ~ invalid c -> New [Some (WithConfig c)] = construct c.
Proof.
  intros Hv. rewrite New_WithConfig.
  by rewrite (validate_valid {| middleware := None; config := c |} Hv).
Qed.

(* construction after validation fails only with a joined library error *)
Lemma construct_error (c : Config) (err : error) :
  construct c = Err err -> exists e1 e2, err = Join e1 e2.
Proof.
  unfold construct, try.
  destruct (Config_Basic c); [destruct (Basic_middleware _)|]; simpl;
    try (intros Heq; inversion Heq; eauto; fail);
    destruct (negb _); try discriminate;
    destruct (JWT_middleware _); intros Heq; inversion Heq; eauto.
Qed.

Lemma construct_config (c : Config) (auth : Auth) :
  construct c = Ok auth -> config auth = c.
Proof.
  unfold construct, try.
  destruct (Config_Basic c); [destruct (Basic_middleware _)|]; simpl;
    try discriminate;
    (destruct (negb _); [destruct (JWT_middleware _)|]);
    intros Heq; inversion Heq; reflexivity.
Qed.

Lemma Basic_middleware_succeeds (cfg : Basic) :
  constructors_succeed -> is_Ok (Basic_middleware cfg) = true.
Proof.
  intros (_ & _ & _ & Hap & Hm). unfold Basic_middleware, try.
  specialize (Hap [basculehttp.WithBasic]).
  destruct (NewAuthorizationParser _); [apply Hm|discriminate].
Qed.

Lemma JWT_middleware_succeeds (cfg : JWT) :
  constructors_succeed -> is_Ok (JWT_middleware cfg) = true.
Proof.
  intros (Hc & Hr & Htp & Hap & Hm). unfold JWT_middleware, toKeySet, try.
  specialize (Hc (HTTPClient (KeyProvider cfg))).
  destruct (NewClient _) as [client|]; [|discriminate].
  match goal with |- context [Register ?a ?b ?c] =>
    specialize (Hr a b c); destruct (Register a b c) as [cache|] end;
    [|discriminate].
  match goal with |- context [NewTokenParser ?k] =>
    specialize (Htp k); destruct (NewTokenParser k) as [jwtp|] end;
    [|discriminate].
  match goal with |- context [NewAuthorizationParser ?l] =>
    specialize (Hap l); destruct (NewAuthorizationParser l) as [tp|] end;
    [|discriminate].
  apply Hm.
Qed.

Lemma construct_succeeds (c : Config) :
  constructors_succeed -> is_Ok (construct c) = true.
Proof.
  intros Hs. unfold construct, try.
  pose proof (Basic_middleware_succeeds (Config_Basic c) Hs) as Hb.
  pose proof (JWT_middleware_succeeds (Config_JWT c) Hs) as Hj.
  destruct (Config_Basic c); [destruct (Basic_middleware _)|]; simpl;
    try discriminate;
    (destruct (negb _); [destruct (JWT_middleware _)|]); auto.
Qed.

Lemma validate_Ok_valid (a b : Auth) : validate a = Ok b -> ~ invalid (config a).
Proof.
  intros Hok Hi. destruct (validate_invalid a Hi) as (msg & Herr). congruence.
Qed.

Lemma New_Ok_valid (c : Config) (auth : Auth) :
  New [Some (WithConfig c)] = Ok auth -> ~ invalid c /\ construct c = Ok auth.
Proof.
  rewrite New_WithConfig.
  destruct (validate {| middleware := None; config := c |}) as [a|e] eqn:Hv;
    simpl; [|discriminate].
  intros Hc. split; auto. apply (validate_Ok_valid _ _ Hv).
Qed.

Lemma valid_dec (c : Config) : invalid c \/ ~ invalid c.
Proof.
  destruct (validate {| middleware := None; config := c |}) as [a|e] eqn:Hv.
  - right. apply (validate_Ok_valid _ _ Hv).
  - left. destruct (decide (c = Config_zero)) as [Hz|Hz]; [by right|].
    destruct (Disable c) eqn:Hd.
    + left. split; auto. intros Heq.
      unfold validate, DeepEqual in Hv. simpl in Hv. fold Config_disabled in Hv.
      rewrite Hd in Hv. rewrite bool_decide_eq_true_2 in Hv by exact Heq.
      simpl in Hv. rewrite bool_decide_eq_false_2 in Hv by exact Hz.
      discriminate.
    + unfold validate, DeepEqual in Hv. simpl in Hv. rewrite Hd in Hv.
      simpl in Hv. rewrite bool_decide_eq_false_2 in Hv by exact Hz.
      discriminate.
Qed.

(** C7: construction ([New] with the configuration option) fails with an
    error wrapping ErrInvalidConfig exactly when the configuration is
    invalid, that is when Disable is set together with any other field, or
    when the whole configuration is the empty one.  The valid
    configurations are Disable alone, and Disable unset with Basic or JWT
    populated; for them construction fails only if a library constructor
    does, with the joined error of that constructor, and succeeds when the
    constructors do, keeping the configuration.  The validators that run
    at request time never return ErrInvalidConfig. *)
Theorem New_fails_exactly_on_invalid_config (c : Config) :
  (invalid c <->
   exists msg,
     New [Some (WithConfig c)] = Err (Errorf_w ErrInvalidConfig msg)) /\
  (forall msg, Is (Errorf_w ErrInvalidConfig msg) ErrInvalidConfig = true) /\
  (~ invalid c <->
   c = Config_disabled \/
   (Disable c = false /\
    (Config_Basic c <> None \/ Config_JWT c <> JWT_zero))) /\
  (~ invalid c ->
   forall err, New [Some (WithConfig c)] = Err err ->
     exists e1 e2, err = Join e1 e2) /\
  (~ invalid c -> constructors_succeed ->
   exists auth, New [Some (WithConfig c)] = Ok auth /\ config auth = c) /\
  (forall (basic : Basic) (jwt : JWT) (token : bascule.Token) (err : error),
     Basic_valid basic token = Some err \/ JWT_valid jwt token = Some err ->
     Is err ErrInvalidConfig = false).
Proof.
  split; [|split; [|split; [|split; [|split]]]].
  - split; [apply New_invalid|].
    intros (msg & Hnew). destruct (valid_dec c) as [Hi|Hv]; auto.
    rewrite (New_valid c Hv) in Hnew.
    destruct (construct_error _ _ Hnew) as (e1 & e2 & Heq). discriminate.
  - intros msg. reflexivity.
  - apply valid_combinations.
  - intros Hv err Hnew. rewrite (New_valid c Hv) in Hnew.
    by apply construct_error in Hnew.
  - intros Hv Hs. rewrite (New_valid c Hv).
    pose proof (construct_succeeds c Hs) as Hok.
    destruct (construct c) as [auth|] eqn:Hc; [|discriminate].
    exists auth. split; auto. by apply construct_config.
  - intros basic jwt token err [Hb|Hj].
    + unfold Basic_valid in Hb.
      destruct token; try (inversion Hb; reflexivity).
      destruct (existsb _ _); inversion Hb; reflexivity.
    + unfold JWT_valid in Hj.
      destruct token; try (inversion Hj; reflexivity).
      destruct (Nat.eqb _ _); [discriminate|].
      destruct (existsb _ _); inversion Hj; reflexivity.
Qed.

(** C9: when no middleware is configured, [Then] returns the handler it
    was given, unchanged, so every request gets the response of the
    protected handler, whatever its headers; and a configuration with
    Disable set, once constructed, has no middleware. *)
Theorem Then_without_middleware_is_handler :
  (forall (auth : Auth) (h : http.Handler),
     middleware auth = None ->
     Then auth h = h /\ forall req, Then auth h req = h req) /\
  (forall (c : Config) (auth : Auth),
     Disable c = true ->
     New [Some (WithConfig c)] = Ok auth ->
     middleware auth = None /\ Protected auth = false).
Proof.
  split.
  - intros auth h Hm. unfold Then. rewrite Hm. split; reflexivity.
  - intros c auth Hd Hnew.
    destruct (New_Ok_valid _ _ Hnew) as [Hv Hc].
    apply valid_combinations in Hv as [Heq|[Hf _]]; [|congruence].
    subst c. unfold construct, Protected in *. simpl in Hc.
    inversion Hc; subst. split; reflexivity.
Qed.

(** C10: when both the Basic table and the JWT key-provider URL are
    populated and construction succeeds, the basic middleware was built
    first and the JWT middleware then took its place: the middleware
    installed is the one [JWT.middleware] returned.  With constructors that
    return what they are given, its authorization parser accepts the Bearer
    scheme only and its validator is the capability check of the JWT
    configuration.  With Disable unset and constructors that succeed,
    construction does succeed. *)
Theorem New_JWT_replaces_Basic
    (c : Config) (table : gmap string string) :
  Config_Basic c = Some table ->
  URL (KeyProvider (Config_JWT c)) <> "" ->
  (forall auth, New [Some (WithConfig c)] = Ok auth ->
   exists basic m,
     Basic_middleware (Config_Basic c) = Ok basic /\
     JWT_middleware (Config_JWT c) = Ok m /\
     middleware auth = Some m /\
     (constructors_faithful ->
      (basculehttp.WithTokenParsers (basculehttp.UseAuthenticator m)).*1
        = [basculehttp.SchemeBearer] /\
      basculehttp.WithValidators (basculehttp.UseAuthenticator m)
        = JWT_valid (Config_JWT c))) /\
  (Disable c = false -> constructors_succeed ->
   exists auth, New [Some (WithConfig c)] = Ok auth).
Proof.
  intros Hb Hurl. split.
  - intros auth Hnew. destruct (New_Ok_valid _ _ Hnew) as [_ Hc].
    unfold construct in Hc. rewrite Hb in Hc. rewrite <- Hb in Hc.
    destruct (Basic_middleware (Config_Basic c)) as [basic|] eqn:Hbm;
      simpl in Hc; [|discriminate].
    apply String.eqb_neq in Hurl. rewrite Hurl in Hc. simpl in Hc.
    destruct (JWT_middleware (Config_JWT c)) as [m|] eqn:Hjm;
      simpl in Hc; [|discriminate].
    inversion Hc; subst. exists basic, m.
    split; [reflexivity|]. split; [reflexivity|]. split; [reflexivity|].
    intros [Hap Hm]. clear Hc.
    unfold JWT_middleware, try in Hjm.
    destruct (toKeySet _) as [keys|]; [|discriminate].
    destruct (NewTokenParser keys) as [jwtp|]; [|discriminate].
    destruct (NewAuthorizationParser _) as [tp|] eqn:Htp; [|discriminate].
    apply Hap in Htp. apply Hm in Hjm. rewrite Hjm. simpl. by subst tp.
  - intros Hd Hs.
    assert (Hv : ~ invalid c).
    { apply valid_combinations. right. split; auto. left. congruence. }
    rewrite (New_valid c Hv).
    pose proof (construct_succeeds c Hs) as Hok.
    destruct (construct c) as [auth|]; [eauto|discriminate].
Qed.
End AuthProofs.

(* required "read": allowed with "read" and "write", refused with "write" *)
Lemma JWT_valid_any_required_capability_witness :
  let cfg := {| KeyProvider := @Provider_zero example_libraries;
                RequiredServiceCapabilities := Some ["read"] |} in
  JWT_valid cfg (bascule.Claims "alice" ["write"; "read"]) = None /\
  JWT_valid cfg (bascule.Claims "bob" ["write"])
    = Some bascule.ErrUnauthorized /\
  JWT_valid (@JWT_zero example_libraries) (bascule.Claims "bob" ["write"])
    = None.
Proof.
  intros cfg. split; [|split].
  - apply (proj1 (proj2 (JWT_valid_any_required_capability
                           cfg "alice" ["write"; "read"]))).
    + discriminate.
    + exists "read". split; [right; left|left].
  - apply (proj2 (proj2 (JWT_valid_any_required_capability
                           cfg "bob" ["write"]))).
    + discriminate.
    + intros c Hc Hr. apply list_elem_of_singleton in Hc.
      apply list_elem_of_singleton in Hr. congruence.
  - apply (proj1 (JWT_valid_any_required_capability
                    (@JWT_zero example_libraries) "bob" ["write"])).
    reflexivity.
Defined.

(* the table {"alice": "secret"}: the right pair, a wrong password, an
   unknown user *)
Lemma Basic_valid_uniform_failure_witness :
  let cfg : @Basic := Some {["alice" := "secret"]} in
  @Basic_valid cfg (bascule.BasicToken "alice" "secret") = None /\
  @Basic_valid cfg (bascule.BasicToken "alice" "guess")
    = Some bascule.ErrBadCredentials /\
  @Basic_valid cfg (bascule.BasicToken "mallory" "secret")
    = Some bascule.ErrBadCredentials.
Proof.
  intros cfg. split; [|split].
  - apply (proj1 (Basic_valid_uniform_failure cfg "alice" "secret")).
    apply lookup_singleton_eq.
  - apply (proj2 (proj2 (Basic_valid_uniform_failure cfg "alice" "guess"))
             "secret").
    + apply lookup_singleton_eq.
    + discriminate.
  - apply (proj1 (proj2 (Basic_valid_uniform_failure cfg "mallory" "secret"))).
    apply lookup_singleton_ne. discriminate.
Defined.

Lemma example_constructors_succeed : @constructors_succeed example_libraries.
Proof. repeat split. Qed.

Lemma example_constructors_faithful : @constructors_faithful example_libraries.
Proof.
  split.
  - intros schemes tp Heq. simpl in Heq. congruence.
  - intros a m Heq. simpl in Heq. inversion Heq. reflexivity.
Qed.

(* the empty configuration is refused; the table {"alice": "secret"} alone
   is accepted *)
Lemma New_fails_exactly_on_invalid_config_witness :
  let basic : Config :=
    {| Disable := false; Config_Basic := Some {["alice" := "secret"]};
       Config_JWT := @JWT_zero example_libraries |} in
  (exists msg,
     New [Some (WithConfig (@Config_zero example_libraries))]
       = Err (Errorf_w ErrInvalidConfig msg)) /\
  (exists auth, New [Some (WithConfig basic)] = Ok auth /\ config auth = basic).
Proof.
  intros basic. split.
  - apply (proj1 (proj1 (@New_fails_exactly_on_invalid_config
                           example_libraries Config_zero))).
    right. reflexivity.
  - apply (proj1 (proj2 (proj2 (proj2 (proj2
             (@New_fails_exactly_on_invalid_config example_libraries basic)))))).
    + intros [[Hd _]|Hz]; discriminate.
    + exact example_constructors_succeed.
Defined.

(* Config{Disable: true}: constructed without a middleware, and its Then
   hands the handler back *)
Lemma Then_without_middleware_is_handler_witness :
  let auth : Auth :=
    {| middleware := None; config := @Config_disabled example_libraries |} in
  let h : http.Handler :=
    fun _ => {| http.StatusCode := 200; http.Body := "ok" |} in
  (Then auth h = h /\ forall req, Then auth h req = h req) /\
  (middleware auth = None /\ Protected auth = false).
Proof.
  intros auth h. split.
  - apply (proj1 (@Then_without_middleware_is_handler example_libraries) auth h).
    reflexivity.
  - apply (proj2 (@Then_without_middleware_is_handler example_libraries)
             Config_disabled auth); reflexivity.
Defined.

(* a table and a key-provider URL together: the Bearer middleware only *)
Lemma New_JWT_replaces_Basic_witness :
  let c : Config :=
    {| Disable := false; Config_Basic := Some {["alice" := "secret"]};
       Config_JWT :=
         {| KeyProvider :=
              {| URL := "https://keys.example/jwks";
                 RefreshInterval := 900;
                 HTTPClient := @ClientConfig_zero example_libraries;
                 DisableAutoAddMissingAlgorithm := false |};
            RequiredServiceCapabilities := Some ["read"] |} |} in
  exists auth m,
    New [Some (WithConfig c)] = Ok auth /\
    middleware auth = Some m /\
    (basculehttp.WithTokenParsers (basculehttp.UseAuthenticator m)).*1
      = [basculehttp.SchemeBearer].
Proof.
  intros c.
  destruct (@New_JWT_replaces_Basic example_libraries c
              {["alice" := "secret"]} eq_refl) as [Hinst Hsucc].
  - discriminate.
  - destruct (Hsucc eq_refl example_constructors_succeed) as (auth & Hnew).
    destruct (Hinst auth Hnew) as (basic & m & _ & _ & Hm & Hf).
    exists auth, m. split; [exact Hnew|]. split; [exact Hm|].
    apply (proj1 (Hf example_constructors_faithful)).
Defined.

(** * Further properties *)

(** ** keyToAlgs *)

Lemma keyToAlgs_lists key algs :
  keyToAlgs key = Ok algs ->
  (KeyType key = jwa.RSA /\
   algs = [jwa.RS256; jwa.RS384; jwa.RS512; jwa.PS256; jwa.PS384; jwa.PS512]) \/
  (KeyType key <> jwa.RSA /\
   (algs = [jwa.EdDSA] \/ algs = [jwa.ES256] \/ algs = [jwa.ES384] \/
    algs = [jwa.ES512])).
Proof.
  unfold keyToAlgs.
  destruct (decide (KeyType key = jwa.RSA)) as [Hrsa|Hrsa].
  - rewrite bool_decide_eq_true_2 by exact Hrsa. intros Heq.
    inversion Heq. by left.
  - rewrite bool_decide_eq_false_2 by exact Hrsa. intros Heq.
    right. split; [exact Hrsa|].
    destruct (bool_decide (KeyType key = jwa.OKP)).
    { inversion Heq. by left. }
    destruct (bool_decide (KeyType key = jwa.EC)); [|discriminate].
    destruct (Raw key) as [[curve ? ?|curve ? ? ?|? ?|? ? ?|?]|];
      try discriminate;
      destruct curve; try discriminate; inversion Heq; auto.
Qed.

(** X1: algorithm inference succeeds exactly for RSA keys, OKP keys, and EC
    keys whose raw form is an ECDSA key, public or private, on P-256, P-384
    or P-521; for an EC key whose raw form cannot be built it returns the
    error of key.Raw as it is. *)
Theorem keyToAlgs_supported_keys (key : Key) :
  (is_Ok (keyToAlgs key) = true <->
   KeyType key = jwa.RSA \/ KeyType key = jwa.OKP \/
   (KeyType key = jwa.EC /\
    exists raw curve,
      Raw key = Ok raw /\ Curve_of raw = Some curve /\
      supported_curve curve)) /\
  (forall err,
     KeyType key = jwa.EC -> Raw key = Err err -> keyToAlgs key = Err err).
Proof.
  split; [|intros err; apply keyToAlgs_Raw_error].
  unfold keyToAlgs, supported_curve. split.
  - destruct (decide (KeyType key = jwa.RSA)) as [Hrsa|Hrsa]; [by left|].
    destruct (decide (KeyType key = jwa.OKP)) as [Hokp|Hokp]; [by right; left|].
    rewrite (bool_decide_eq_false_2 _ Hrsa), (bool_decide_eq_false_2 _ Hokp).
    destruct (decide (KeyType key = jwa.EC)) as [Hec|Hec].
    + rewrite (bool_decide_eq_true_2 _ Hec). intros Hok.
      right; right. split; [exact Hec|].
      destruct (Raw key) as [[curve ? ?|curve ? ? ?|? ?|? ? ?|?]|];
        try discriminate;
        (eexists _, curve; split; [reflexivity|]; split; [reflexivity|]);
        destruct curve; try discriminate; auto.
    + rewrite (bool_decide_eq_false_2 _ Hec). discriminate.
  - intros [->|[->|(-> & raw & curve & -> & Hc & Hs)]]; try reflexivity.
    simpl. destruct raw; simpl in Hc; try discriminate;
      inversion Hc; subst;
      destruct Hs as [->|[->| ->]]; reflexivity.
Qed.

Lemma keyToAlgs_supported_keys_witness :
  is_Ok (keyToAlgs (mkKey 0 "ec" jwa.EC None
                      (Ok (ecdsa_PrivateKey elliptic.P521 5 7 9)))) = true /\
  keyToAlgs (mkKey 1 "ec" jwa.EC None (Err (Library "jwk" "no such curve")))
    = Err (Library "jwk" "no such curve").
Proof.
  split.
  - apply (proj2 (proj1 (keyToAlgs_supported_keys
             (mkKey 0 "ec" jwa.EC None
                (Ok (ecdsa_PrivateKey elliptic.P521 5 7 9)))))).
    right; right. split; [reflexivity|].
    eexists _, elliptic.P521. split; [reflexivity|]. split; [reflexivity|].
    right; right. reflexivity.
  - apply (proj2 (keyToAlgs_supported_keys
             (mkKey 1 "ec" jwa.EC None (Err (Library "jwk" "no such curve")))));
      reflexivity.
Defined.

Lemma keyToAlgs_length (key : Key) (algs : list jwa.SignatureAlgorithm) :
  keyToAlgs key = Ok algs -> 1 <= length algs <= 6.
Proof.
  intros Hk.
  destruct (keyToAlgs_lists _ _ Hk)
    as [[_ ->]|[_ [->|[->|[->| ->]]]]]; simpl; lia.
Qed.

Lemma keyToAlgs_names (key : Key) (algs : list jwa.SignatureAlgorithm) :
  keyToAlgs key = Ok algs -> Forall (fun alg => alg <> "") algs.
Proof.
  intros Hk.
  destruct (keyToAlgs_lists _ _ Hk)
    as [[_ ->]|[_ [->|[->|[->| ->]]]]]; repeat constructor; discriminate.
Qed.

(** X2: the algorithms inference returns are never an empty list, are at
    most six, are pairwise different, none of them is the empty name, and
    only an RSA key gets more than one. *)
Theorem keyToAlgs_algorithms_shape
    (key : Key) (algs : list jwa.SignatureAlgorithm) :
  keyToAlgs key = Ok algs ->
  1 <= length algs <= 6 /\
  NoDup algs /\
  Forall (fun alg => alg <> "") algs /\
  (KeyType key = jwa.RSA \/ length algs = 1).
Proof.
  intros Hk.
  split; [by apply (keyToAlgs_length key)|].
  split; [|split; [by apply (keyToAlgs_names key)|]].
  - assert (Hnd : forall l : list string,
              bool_decide (NoDup l) = true -> NoDup l).
    { intros l. apply bool_decide_eq_true_1. }
    destruct (keyToAlgs_lists _ _ Hk)
      as [[_ ->]|[_ [->|[->|[->| ->]]]]];
      apply Hnd; vm_compute; reflexivity.
  - destruct (keyToAlgs_lists _ _ Hk)
      as [[Hrsa _]|[_ [->|[->|[->| ->]]]]]; auto.
Qed.

Lemma keyToAlgs_algorithms_shape_witness :
  let key := mkKey 0 "k-rsa" jwa.RSA None (Ok (rsa_PublicKey 3233 17)) in
  exists algs,
    keyToAlgs key = Ok algs /\ 1 <= length algs <= 6 /\ NoDup algs /\
    Forall (fun alg => alg <> "") algs /\
    (KeyType key = jwa.RSA \/ length algs = 1).
Proof.
  intros key. eexists. split; [reflexivity|].
  apply (keyToAlgs_algorithms_shape key). reflexivity.
Defined.

(** ** mapMissingAlgorithms *)

(* a successful call on a well-formed set is a successful run of the loop *)
Lemma mapMissingAlgorithms_success url keySet h out h' :
  wf keySet h ->
  mapMissingAlgorithms url keySet h = ((out, None), h') ->
  outputs keySet h = (Ok out, h').
Proof.
  intros Hwf. rewrite mapMissingAlgorithms_outputs by exact Hwf.
  destruct (outputs keySet h) as [[out0|e] h0]; intros Heq;
    inversion Heq; reflexivity.
Qed.

Lemma outputs_processable keys : forall h out h',
  outputs keys h = (Ok out, h') -> Forall processable keys.
Proof.
  induction keys as [|key keys IH]; intros h out h' Hrun; [constructor|].
  simpl in Hrun. destruct (declares key) eqn:Hd.
  - destruct (outputs keys h) as [[out0|e] h0] eqn:Hrec; [|discriminate].
    constructor; [by left|]. eapply IH; eauto.
  - destruct (keyToAlgs key) as [algs|e] eqn:Hk; [|discriminate].
    destruct (outputs keys (h + length algs)) as [[out0|e] h0] eqn:Hrec;
      [|discriminate].
    constructor; [right; by rewrite Hk|]. eapply IH; eauto.
Qed.

Lemma clones_declare key algs : forall h,
  Forall (fun alg => alg <> "") algs ->
  Forall (fun d => declares d = true) (clones key algs h).
Proof.
  induction algs as [|alg algs IH]; intros h Hne; simpl; constructor.
  - apply Forall_cons in Hne as [Ha _]. unfold declares, Algorithm. simpl.
    apply negb_true_iff. by apply String.eqb_neq.
  - apply IH. by apply Forall_cons in Hne as [_ Hne].
Qed.

Lemma outputs_declare keys : forall h out h',
  outputs keys h = (Ok out, h') -> Forall (fun d => declares d = true) out.
Proof.
  induction keys as [|key keys IH]; intros h out h' Hrun; simpl in Hrun.
  - inversion Hrun. constructor.
  - destruct (declares key) eqn:Hd.
    + destruct (outputs keys h) as [[out0|e] h0] eqn:Hrec;
        inversion Hrun; subst.
      constructor; auto. eapply IH; eauto.
    + destruct (keyToAlgs key) as [algs|e] eqn:Hk; [|discriminate].
      destruct (outputs keys (h + length algs)) as [[out0|e] h0] eqn:Hrec;
        inversion Hrun; subst.
      apply Forall_app. split; [|eapply IH; eauto].
      apply clones_declare. by apply (keyToAlgs_names key).
Qed.

Lemma clones_NoDup key algs : forall h, NoDup (ref <$> clones key algs h).
Proof.
  induction algs as [|alg algs IH]; intros h; simpl; constructor; auto.
  intros Hin. apply list_elem_of_fmap in Hin as (d & Heq & Hd).
  pose proof (clones_refs key algs (S h)) as Hr.
  rewrite Forall_forall in Hr. specialize (Hr d Hd). simpl in Heq. lia.
Qed.

(* the output of a run on a well-formed set is well-formed at the address
   the run leaves *)
Lemma outputs_wf keys : forall h out h',
  wf keys h -> outputs keys h = (Ok out, h') -> wf out h'.
Proof.
  induction keys as [|key keys IH]; intros h out h' Hwf Hrun.
  - simpl in Hrun. inversion Hrun. split; constructor.
  - destruct (wf_app_inv [] key keys h Hwf) as (_ & Hwk & Hlt & _ & Hnk).
    simpl in Hrun. destruct (declares key) eqn:Hd.
    + destruct (outputs keys h) as [[out0|e] h0] eqn:Hrec;
        inversion Hrun; subst.
      destruct (IH _ _ _ Hwk Hrec) as [Hnd Hb].
      destruct (outputs_refs _ _ _ _ Hrec) as [Hle _].
      split.
      * rewrite fmap_cons. constructor; auto.
        eapply outputs_avoid; eauto.
      * constructor; auto. lia.
    + destruct (keyToAlgs key) as [algs|e] eqn:Hk; [|discriminate].
      destruct (outputs keys (h + length algs)) as [[out0|e] h0] eqn:Hrec;
        inversion Hrun; subst.
      assert (Hwk' : wf keys (h + length algs)).
      { apply wf_mono with (h := h); [lia|exact Hwk]. }
      destruct (IH _ _ _ Hwk' Hrec) as [Hnd Hb].
      destruct (outputs_refs _ _ _ _ Hrec) as [Hle Hall].
      pose proof (clones_refs key algs h) as Hc.
      rewrite Forall_forall in Hc, Hall.
      split.
      * rewrite fmap_app. apply NoDup_app. split; [apply clones_NoDup|].
        split; auto.
        intros r Hin1 Hin2.
        apply list_elem_of_fmap in Hin1 as (d1 & -> & Hd1).
        apply list_elem_of_fmap in Hin2 as (d2 & Heq & Hd2).
        specialize (Hc d1 Hd1). destruct (Hall d2 Hd2) as [Hk2|Hr2]; [|lia].
        destruct Hwk as [_ Hlk]. rewrite Forall_forall in Hlk.
        specialize (Hlk d2 Hk2). lia.
      * apply Forall_app. split; auto.
        apply Forall_forall. intros d Hd'. specialize (Hc d Hd'). lia.
Qed.

(** X3: on a key set of distinct key objects, the post-fetch processing
    returns without error exactly when every key either declares an
    algorithm or is one inference supports. *)
Theorem mapMissingAlgorithms_succeeds_iff_processable
    (url : string) (keySet : Set_) (h : nat) :
  wf keySet h ->
  ((exists out h', mapMissingAlgorithms url keySet h = ((out, None), h')) <->
   Forall processable keySet).
Proof.
  intros Hwf. split.
  - intros (out & h' & Hrun).
    apply (outputs_processable keySet h out h').
    by apply (mapMissingAlgorithms_success url).
  - intros Hp. destruct (outputs_ok keySet h Hp) as (out & h' & Hrun).
    exists out, h'. rewrite mapMissingAlgorithms_outputs by exact Hwf.
    by rewrite Hrun.
Qed.

Lemma mapMissingAlgorithms_succeeds_iff_processable_witness :
  let ec := mkKey 0 "k-ec" jwa.EC None (Ok (ecdsa_PublicKey elliptic.P384 5 7)) in
  let oct := mkKey 1 "k-oct" jwa.OctetSeq (Some (jwa.SigAlg "HS256"))
               (Ok (other_raw "secret")) in
  exists out h', mapMissingAlgorithms "localhost" [ec; oct] 2 = ((out, None), h').
Proof.
  intros ec oct.
  apply (mapMissingAlgorithms_succeeds_iff_processable "localhost" [ec; oct] 2).
  - split.
    + apply (bool_decide_unpack _). vm_compute. exact I.
    + repeat constructor.
  - constructor; [right; reflexivity|].
    constructor; [left; reflexivity|constructor].
Defined.

(** X4: every key of a key set the post-fetch processing returns without
    error declares a non-empty algorithm, and the set again consists of
    distinct key objects. *)
Theorem mapMissingAlgorithms_output_declares
    (url : string) (keySet : Set_) (h : nat) (out : Set_) (h' : nat) :
  wf keySet h ->
  mapMissingAlgorithms url keySet h = ((out, None), h') ->
  Forall (fun d => jwa.String (Algorithm d) <> "") out /\ wf out h'.
Proof.
  intros Hwf Hrun.
  apply (mapMissingAlgorithms_success url) in Hrun; [|exact Hwf].
  split; [|by apply (outputs_wf keySet h)].
  eapply Forall_impl; [apply (outputs_declare _ _ _ _ Hrun)|].
  simpl. intros d Hd. unfold declares in Hd.
  apply negb_true_iff in Hd. by apply String.eqb_neq.
Qed.

Lemma mapMissingAlgorithms_output_declares_witness :
  let rsa := mkKey 0 "k-rsa" jwa.RSA None (Ok (rsa_PublicKey 3233 17)) in
  exists out h',
    mapMissingAlgorithms "localhost" [rsa] 1 = ((out, None), h') /\
    Forall (fun d => jwa.String (Algorithm d) <> "") out /\ wf out h'.
Proof.
  intros rsa. eexists _, _. split; [reflexivity|].
  apply (mapMissingAlgorithms_output_declares "localhost" [rsa] 1).
  - split.
    + apply (bool_decide_unpack _). vm_compute. exact I.
    + repeat constructor.
  - reflexivity.
Defined.

(** X5: the post-fetch processing is idempotent: applied again to a key set
    it returned without error, it returns that same set, with the same key
    objects, without error and without cloning anything. *)
Theorem mapMissingAlgorithms_idempotent
    (url url' : string) (keySet : Set_) (h : nat) (out : Set_) (h' : nat) :
  wf keySet h ->
  mapMissingAlgorithms url keySet h = ((out, None), h') ->
  mapMissingAlgorithms url' out h' = ((out, None), h').
Proof.
  intros Hwf Hrun.
  apply (mapMissingAlgorithms_success url) in Hrun; [|exact Hwf].
  apply mapMissingAlgorithms_all_declared.
  - by apply (outputs_wf keySet h).
  - by apply (outputs_declare keySet h out h').
Qed.

Lemma mapMissingAlgorithms_idempotent_witness :
  let rsa := mkKey 0 "k-rsa" jwa.RSA None (Ok (rsa_PublicKey 3233 17)) in
  let ec := mkKey 1 "k-ec" jwa.EC None (Ok (ecdsa_PublicKey elliptic.P256 5 7)) in
  exists out h',
    mapMissingAlgorithms "localhost" [rsa; ec] 2 = ((out, None), h') /\
    length out = 7 /\
    mapMissingAlgorithms "localhost" out h' = ((out, None), h').
Proof.
  intros rsa ec. eexists _, _. split; [reflexivity|]. split; [reflexivity|].
  apply (mapMissingAlgorithms_idempotent "localhost" "localhost" [rsa; ec] 2).
  - split.
    + apply (bool_decide_unpack _). vm_compute. exact I.
    + repeat constructor.
  - reflexivity.
Defined.

Lemma clones_identity key algs : forall h,
  identity <$> clones key algs h = replicate (length algs) (identity key).
Proof.
  induction algs as [|alg algs IH]; intros h; simpl; auto.
  f_equal. apply IH.
Qed.

Lemma outputs_identity keys : forall h out h',
  outputs keys h = (Ok out, h') ->
  identity <$> out =
    flat_map (fun key => replicate (copies key) (identity key)) keys.
Proof.
  induction keys as [|key keys IH]; intros h out h' Hrun; simpl in Hrun.
  - inversion Hrun. reflexivity.
  - simpl. unfold copies at 1. destruct (declares key) eqn:Hd.
    + destruct (outputs keys h) as [[out0|e] h0] eqn:Hrec;
        inversion Hrun; subst.
      simpl. f_equal. eapply IH; eauto.
    + destruct (keyToAlgs key) as [algs|e] eqn:Hk; [|discriminate].
      destruct (outputs keys (h + length algs)) as [[out0|e] h0] eqn:Hrec;
        inversion Hrun; subst.
      rewrite fmap_app, clones_identity. f_equal. eapply IH; eauto.
Qed.

Lemma copies_bounds key : processable key -> 1 <= copies key <= 6.
Proof.
  unfold copies. intros [Hd|Hk].
  - rewrite Hd. lia.
  - destruct (declares key); [lia|].
    destruct (keyToAlgs key) as [algs|] eqn:Ha; [|discriminate].
    apply (keyToAlgs_length key algs Ha).
Qed.

(** X6: a successful post-fetch processing keeps every key and the order of
    the keys: the key-ids, key types and key materials of the output are
    those of the input in order, each as often as the key has entries (once
    for a key that declares an algorithm, once per inferred algorithm
    otherwise), so every input key is represented and no entry belongs to
    a key that was not in the input. *)
Theorem mapMissingAlgorithms_keeps_keys_in_order
    (url : string) (keySet : Set_) (h : nat) (out : Set_) (h' : nat) :
  wf keySet h ->
  mapMissingAlgorithms url keySet h = ((out, None), h') ->
  identity <$> out =
    flat_map (fun key => replicate (copies key) (identity key)) keySet /\
  Forall (fun key => 1 <= copies key <= 6) keySet.
Proof.
  intros Hwf Hrun.
  apply (mapMissingAlgorithms_success url) in Hrun; [|exact Hwf].
  split; [by apply (outputs_identity keySet h out h')|].
  eapply Forall_impl; [apply (outputs_processable _ _ _ _ Hrun)|].
  apply copies_bounds.
Qed.

Lemma mapMissingAlgorithms_keeps_keys_in_order_witness :
  let ec := mkKey 0 "k-ec" jwa.EC None (Ok (ecdsa_PublicKey elliptic.P384 5 7)) in
  let rsa := mkKey 1 "k-rsa" jwa.RSA (Some (jwa.SigAlg jwa.PS256))
               (Ok (rsa_PublicKey 3233 17)) in
  exists out h',
    mapMissingAlgorithms "localhost" [ec; rsa] 2 = ((out, None), h') /\
    KeyID <$> out = ["k-ec"; "k-rsa"] /\
    identity <$> out =
      flat_map (fun key => replicate (copies key) (identity key)) [ec; rsa] /\
    Forall (fun key => 1 <= copies key <= 6) [ec; rsa].
Proof.
  intros ec rsa. eexists _, _. split; [reflexivity|]. split; [reflexivity|].
  eapply (mapMissingAlgorithms_keeps_keys_in_order "localhost" [ec; rsa] 2).
  - split.
    + apply (bool_decide_unpack _). vm_compute. exact I.
    + repeat constructor.
  - reflexivity.
Defined.

Lemma outputs_length keys : forall h out h',
  outputs keys h = (Ok out, h') ->
  h <= h' /\
  length out = (h' - h) + length (filter (fun key => declares key = true) keys) /\
  length keys <= length out <= 6 * length keys.
Proof.
  induction keys as [|key keys IH]; intros h out h' Hrun; simpl in Hrun.
  - inversion Hrun; subst. simpl. lia.
  - destruct (declares key) eqn:Hd.
    + destruct (outputs keys h) as [[out0|e] h0] eqn:Hrec;
        inversion Hrun; subst.
      destruct (IH _ _ _ Hrec) as (Hle & Hlen & Hb).
      rewrite filter_cons_True by exact Hd. simpl. lia.
    + destruct (keyToAlgs key) as [algs|e] eqn:Hk; [|discriminate].
      destruct (outputs keys (h + length algs)) as [[out0|e] h0] eqn:Hrec;
        inversion Hrun; subst.
      destruct (IH _ _ _ Hrec) as (Hle & Hlen & Hb).
      pose proof (keyToAlgs_length key algs Hk) as Hn.
      rewrite filter_cons_False by congruence.
      rewrite length_app, clones_length. simpl. lia.
Qed.

(** X7: a successful post-fetch processing returns at least as many keys as
    it was given and at most six times as many, and it allocates exactly
    one new key object for each returned key that is not an input key that
    already declared an algorithm. *)
Theorem mapMissingAlgorithms_size
    (url : string) (keySet : Set_) (h : nat) (out : Set_) (h' : nat) :
  wf keySet h ->
  mapMissingAlgorithms url keySet h = ((out, None), h') ->
  length keySet <= length out <= 6 * length keySet /\
  h <= h' /\
  length out =
    (h' - h) + length (filter (fun key => declares key = true) keySet).
Proof.
  intros Hwf Hrun.
  apply (mapMissingAlgorithms_success url) in Hrun; [|exact Hwf].
  destruct (outputs_length _ _ _ _ Hrun) as (Hle & Hlen & Hb). auto.
Qed.

Lemma mapMissingAlgorithms_size_witness :
  let rsa := mkKey 0 "k-rsa" jwa.RSA None (Ok (rsa_PublicKey 3233 17)) in
  let ec := mkKey 1 "k-ec" jwa.EC (Some (jwa.SigAlg jwa.ES256))
              (Ok (ecdsa_PublicKey elliptic.P256 5 7)) in
  exists out h',
    mapMissingAlgorithms "localhost" [rsa; ec] 2 = ((out, None), h') /\
    h' = 8 /\
    (length [rsa; ec] <= length out <= 6 * length [rsa; ec] /\
     2 <= h' /\
     length out =
       (h' - 2) + length (filter (fun key => declares key = true) [rsa; ec])).
Proof.
  intros rsa ec. eexists _, _. split; [reflexivity|]. split; [reflexivity|].
  apply (mapMissingAlgorithms_size "localhost" [rsa; ec] 2).
  - split.
    + apply (bool_decide_unpack _). vm_compute. exact I.
    + repeat constructor.
  - reflexivity.
Defined.

Lemma NoDup_fmap_same {A B} (f : A -> B) (l : list A) (x y : A) :
  NoDup (f <$> l) -> x ∈ l -> y ∈ l -> f x = f y -> x = y.
Proof.
  induction l as [|a l IH]; intros Hnd Hx Hy Heq.
  - by apply elem_of_nil in Hx.
  - rewrite fmap_cons in Hnd. apply NoDup_cons in Hnd as [Ha Hnd].
    apply elem_of_cons in Hx as [->|Hx]; apply elem_of_cons in Hy as [->|Hy];
      auto.
    + exfalso. apply Ha. rewrite Heq. apply list_elem_of_fmap. eauto.
    + exfalso. apply Ha. rewrite <- Heq. apply list_elem_of_fmap. eauto.
Qed.

Lemma clones_origin key algs : forall h,
  Forall (fun d => exists alg, alg ∈ algs /\ d = cloneWith key (ref d) alg)
         (clones key algs h).
Proof.
  induction algs as [|alg algs IH]; intros h; simpl; constructor.
  - exists alg. split; [left|reflexivity].
  - eapply Forall_impl; [apply IH|]. simpl.
    intros d (a & Ha & Hd). exists a. split; [by right|exact Hd].
Qed.

Lemma outputs_origin keys : forall h out h',
  outputs keys h = (Ok out, h') ->
  Forall (fun d =>
            (d ∈ keys /\ declares d = true) \/
            (h <= ref d < h' /\
             exists key algs alg,
               key ∈ keys /\ declares key = false /\
               keyToAlgs key = Ok algs /\ alg ∈ algs /\
               d = cloneWith key (ref d) alg)) out.
Proof.
  induction keys as [|key keys IH]; intros h out h' Hrun; simpl in Hrun.
  - inversion Hrun. constructor.
  - destruct (declares key) eqn:Hd.
    + destruct (outputs keys h) as [[out0|e] h0] eqn:Hrec;
        inversion Hrun; subst.
      constructor; [left; split; [left|exact Hd]|].
      eapply Forall_impl; [apply (IH _ _ _ Hrec)|]. simpl.
      intros d [[Hin Hdd]|[Hr (k & algs & alg & Hk & Hrest)]].
      * left. split; [by right|exact Hdd].
      * right. split; [exact Hr|]. exists k, algs, alg. split; [by right|auto].
    + destruct (keyToAlgs key) as [algs|e] eqn:Hk; [|discriminate].
      destruct (outputs keys (h + length algs)) as [[out0|e] h0] eqn:Hrec;
        inversion Hrun; subst.
      destruct (outputs_refs _ _ _ _ Hrec) as [Hle _].
      apply Forall_app. split.
      * pose proof (clones_origin key algs h) as Ho.
        pose proof (clones_refs key algs h) as Hr.
        rewrite Forall_forall in Ho, Hr. apply Forall_forall. intros d Hin.
        destruct (Ho d Hin) as (alg & Ha & Heq). specialize (Hr d Hin).
        right. split; [lia|]. exists key, algs, alg.
        split; [left|]. auto.
      * eapply Forall_impl; [apply (IH _ _ _ Hrec)|]. simpl.
        intros d [[Hin Hdd]|[Hr (k & algs' & alg & Hk' & Hrest)]].
        -- left. split; [by right|exact Hdd].
        -- right. split; [lia|]. exists k, algs', alg.
           split; [by right|auto].
Qed.

(** X8: every key a successful post-fetch processing returns is either an
    input key that declares an algorithm, returned as the same object, or a
    newly allocated clone of an input key that declares none, carrying one
    of the algorithms inferred for that key; an input key that declares no
    algorithm is itself never part of the output. *)
Theorem mapMissingAlgorithms_output_origin
    (url : string) (keySet : Set_) (h : nat) (out : Set_) (h' : nat) :
  wf keySet h ->
  mapMissingAlgorithms url keySet h = ((out, None), h') ->
  Forall (fun d =>
            (d ∈ keySet /\ declares d = true) \/
            ((ref d ∉ ref <$> keySet) /\
             exists key algs alg,
               key ∈ keySet /\ declares key = false /\
               keyToAlgs key = Ok algs /\ alg ∈ algs /\
               d = cloneWith key (ref d) alg)) out /\
  (forall key, key ∈ keySet -> declares key = false ->
               ref key ∉ ref <$> out).
Proof.
  intros Hwf Hrun.
  apply (mapMissingAlgorithms_success url) in Hrun; [|exact Hwf].
  pose proof (outputs_origin _ _ _ _ Hrun) as Ho.
  destruct Hwf as [Hnd Hlt]. rewrite Forall_forall in Hlt.
  split.
  - eapply Forall_impl; [exact Ho|]. simpl.
    intros d [Hl|[Hr Hex]]; [by left|]. right. split; [|exact Hex].
    intros Hin. apply list_elem_of_fmap in Hin as (k & Heq & Hk).
    specialize (Hlt k Hk). lia.
  - intros key Hkey Hd Hin.
    apply list_elem_of_fmap in Hin as (d & Heq & Hdin).
    rewrite Forall_forall in Ho. destruct (Ho d Hdin) as [[Hdk Hdd]|[Hr _]].
    + assert (d = key); [|congruence].
      by apply (NoDup_fmap_same ref keySet).
    + specialize (Hlt key Hkey). lia.
Qed.

Lemma mapMissingAlgorithms_output_origin_witness :
  let okp := mkKey 0 "k-okp" jwa.OKP None (Ok (other_raw "ed25519")) in
  let ec := mkKey 1 "k-ec" jwa.EC (Some (jwa.SigAlg jwa.ES256))
              (Ok (ecdsa_PublicKey elliptic.P256 5 7)) in
  exists out h',
    mapMissingAlgorithms "localhost" [okp; ec] 2 = ((out, None), h') /\
    out = [cloneWith okp 2 jwa.EdDSA; ec] /\
    (forall key, key ∈ [okp; ec] -> declares key = false ->
                 ref key ∉ ref <$> out).
Proof.
  intros okp ec.
  assert (Hwf : wf [okp; ec] 2).
  { split.
    - apply (bool_decide_unpack _). vm_compute. exact I.
    - repeat constructor. }
  exists [cloneWith okp 2 jwa.EdDSA; ec], 3.
  split; [reflexivity|]. split; [reflexivity|].
  apply (proj2 (mapMissingAlgorithms_output_origin "localhost" [okp; ec] 2
                  [cloneWith okp 2 jwa.EdDSA; ec] 3 Hwf eq_refl)).
Defined.

(** ** The validators *)

Section ValidatorProofs.
Context `{External}.

(** X9: basic-auth validation accepts a token exactly when it is a basic
    token whose username the table maps to its password; every other
    token, of whatever type, gets ErrBadCredentials, so a nil or empty
    table accepts nothing. *)
Theorem Basic_valid_accepts_iff (cfg : Basic) (token : bascule.Token) :
  (Basic_valid cfg token = None <->
   exists u p, token = bascule.BasicToken u p /\ default ∅ cfg !! u = Some p) /\
  (Basic_valid cfg token <> None ->
   Basic_valid cfg token = Some bascule.ErrBadCredentials) /\
  (default ∅ cfg = ∅ -> Basic_valid cfg token = Some bascule.ErrBadCredentials).
Proof.
  assert (Hiff : Basic_valid cfg token = None <->
                 exists u p, token = bascule.BasicToken u p /\
                             default ∅ cfg !! u = Some p).
  { destruct token as [u p|s caps|pr].
    - rewrite Basic_valid_lookup. case_bool_decide as Hl.
      + split; [eauto|done].
      + split; [discriminate|]. intros (u' & p' & Heq & Hl').
        inversion Heq; subst. contradiction.
    - simpl. split; [discriminate|]. intros (u' & p' & Heq & _). discriminate.
    - simpl. split; [discriminate|]. intros (u' & p' & Heq & _). discriminate. }
  split; [exact Hiff|]. split.
  - intros Hne. destruct token as [u p|s caps|pr]; try reflexivity.
    rewrite Basic_valid_lookup in *. by case_bool_decide.
  - intros Hempty. destruct token as [u p|s caps|pr]; try reflexivity.
    rewrite Basic_valid_lookup, Hempty, lookup_empty.
    by rewrite bool_decide_eq_false_2.
Qed.

Lemma JWT_valid_Claims_cases (cfg : JWT) (s : string) (caps : list string) :
  JWT_valid cfg (bascule.Claims s caps) = None \/
  JWT_valid cfg (bascule.Claims s caps) = Some bascule.ErrUnauthorized.
Proof.
  unfold JWT_valid.
  destruct (Nat.eqb _ _); [by left|].
  destruct (existsb _ _); [by left|by right].
Qed.

Lemma JWT_valid_Claims_None (cfg : JWT) (s : string) (caps : list string) :
  JWT_valid cfg (bascule.Claims s caps) = None <->
  (elems (RequiredServiceCapabilities cfg) = [] \/
   exists c, c ∈ caps /\ c ∈ elems (RequiredServiceCapabilities cfg)).
Proof.
  unfold JWT_valid. simpl.
  pose proof (capability_match (elems (RequiredServiceCapabilities cfg)) caps)
    as Hm.
  destruct (elems (RequiredServiceCapabilities cfg)) as [|r required] eqn:Hreq;
    simpl length; simpl Nat.eqb.
  - split; [by left|done].
  - destruct (existsb _ caps) eqn:Hex.
    + split; [|done]. intros _. right. by apply Hm.
    + split; [discriminate|]. intros [?|Hc]; [discriminate|].
      apply Hm in Hc. discriminate.
Qed.

(** X10: the capability check of the JWT scheme accepts a token exactly
    when it is a claims token and either no capability is required or one
    of its capabilities is a required one; a token that is not a claims
    token gets ErrBadCredentials even when no capability is required, and
    a claims token that is refused gets ErrUnauthorized. *)
Theorem JWT_valid_accepts_iff (cfg : JWT) (token : bascule.Token) :
  let required := elems (RequiredServiceCapabilities cfg) in
  (JWT_valid cfg token = None <->
   exists subject capabilities,
     token = bascule.Claims subject capabilities /\
     (required = [] \/ exists c, c ∈ capabilities /\ c ∈ required)) /\
  ((forall subject capabilities,
      token <> bascule.Claims subject capabilities) ->
   JWT_valid cfg token = Some bascule.ErrBadCredentials) /\
  (forall subject capabilities,
     token = bascule.Claims subject capabilities ->
     JWT_valid cfg token <> None ->
     JWT_valid cfg token = Some bascule.ErrUnauthorized).
Proof.
  intros required.
  pose proof (JWT_valid_Claims_cases cfg) as Hcases.
  pose proof (JWT_valid_Claims_None cfg) as Hacc. fold required in Hacc.
  split; [|split].
  - destruct token as [u p|s caps|pr].
    + simpl. split; [discriminate|]. intros (s' & c' & Heq & _). discriminate.
    + rewrite Hacc. split; [eauto|].
      intros (s' & c' & Heq & Hd'). by inversion Heq; subst.
    + simpl. split; [discriminate|]. intros (s' & c' & Heq & _). discriminate.
  - intros Hnc. destruct token as [u p|s caps|pr]; try reflexivity.
    by destruct (Hnc s caps).
  - intros s caps -> Hne. by destruct (Hcases s caps).
Qed.

(** X11: the capability check never turns against a token for declaring
    more: when it accepts a claims token, it accepts every claims token
    that declares at least the same capabilities, whatever its subject and
    whatever the order or repetition of the capabilities. *)
Theorem JWT_valid_monotone
    (cfg : JWT) (subject subject' : string)
    (capabilities capabilities' : list string) :
  capabilities ⊆ capabilities' ->
  JWT_valid cfg (bascule.Claims subject capabilities) = None ->
  JWT_valid cfg (bascule.Claims subject' capabilities') = None.
Proof.
  intros Hsub Hv. apply JWT_valid_Claims_None.
  apply JWT_valid_Claims_None in Hv as [He|(c & Hc & Hr)]; [by left|].
  right. exists c. split; auto.
Qed.

End ValidatorProofs.

Lemma Basic_valid_accepts_iff_witness :
  let cfg : @Basic := Some {["alice" := "secret"]} in
  @Basic_valid cfg (bascule.BasicToken "alice" "secret") = None /\
  @Basic_valid cfg (bascule.Claims "alice" ["secret"])
    = Some bascule.ErrBadCredentials /\
  @Basic_valid (Some ∅) (bascule.BasicToken "alice" "secret")
    = Some bascule.ErrBadCredentials.
Proof.
  intros cfg. split; [|split].
  - apply (proj1 (Basic_valid_accepts_iff cfg _)).
    exists "alice", "secret". split; [reflexivity|apply lookup_singleton_eq].
  - apply (proj1 (proj2 (Basic_valid_accepts_iff cfg _))). discriminate.
  - apply (proj2 (proj2 (Basic_valid_accepts_iff (Some ∅) _))). reflexivity.
Defined.

Lemma JWT_valid_accepts_iff_witness :
  let open := @JWT_zero example_libraries in
  let cfg := {| KeyProvider := @Provider_zero example_libraries;
                RequiredServiceCapabilities := Some ["read"] |} in
  JWT_valid open (bascule.BasicToken "alice" "secret")
    = Some bascule.ErrBadCredentials /\
  JWT_valid cfg (bascule.Claims "alice" ["write"])
    = Some bascule.ErrUnauthorized.
Proof.
  intros open cfg. split.
  - apply (proj1 (proj2 (JWT_valid_accepts_iff open _))). discriminate.
  - apply (proj2 (proj2 (JWT_valid_accepts_iff cfg _)) "alice" ["write"]).
    + reflexivity.
    + discriminate.
Defined.

Lemma JWT_valid_monotone_witness :
  let cfg := {| KeyProvider := @Provider_zero example_libraries;
                RequiredServiceCapabilities := Some ["read"; "admin"] |} in
  JWT_valid cfg (bascule.Claims "bob" ["write"; "read"; "read"]) = None.
Proof.
  intros cfg.
  apply (JWT_valid_monotone cfg "alice" "bob" ["read"]).
  - intros c Hc. apply list_elem_of_singleton in Hc. subst.
    right; left.
  - reflexivity.
Defined.

(** ** New and its options *)

Section ConstructionProofs.
Context `{External}.

Lemma applyOpts_app (opts1 opts2 : list (option Option)) : forall auth,
  applyOpts (opts1 ++ opts2) auth =
    try (applyOpts opts1 auth) id (applyOpts opts2).
Proof.
  induction opts1 as [|[opt|] opts1 IH]; intros auth; simpl; auto.
  destruct (opt auth) as [auth'|e]; simpl; auto.
Qed.

Lemma default_last_cons {A} (l : list A) : forall d c : A,
  default d (last (c :: l)) = default c (last l).
Proof.
  induction l as [|x l IH]; intros d c; [reflexivity|].
  change (default d (last (x :: l)) = default c (last (x :: l))).
  by rewrite (IH d x), (IH c x).
Qed.

Lemma applyOpts_configOptions (cs : list (option Config)) : forall auth,
  applyOpts (configOptions cs) auth =
    Ok {| middleware := middleware auth;
          config := default (config auth) (lastConfig cs) |}.
Proof.
  unfold configOptions, lastConfig.
  induction cs as [|[c|] cs IH]; intros auth; simpl.
  - by destruct auth.
  - rewrite IH. simpl. by rewrite default_last_cons.
  - apply IH.
Qed.

Lemma lastConfig_singleton (o : option Config) : lastConfig [o] = o.
Proof. by destruct o. Qed.

Lemma New_configOptions (cs : list (option Config)) :
  New (configOptions cs) = New (configOptions [lastConfig cs]).
Proof.
  unfold New. rewrite !applyOpts_app, !applyOpts_configOptions.
  by rewrite lastConfig_singleton.
Qed.

(** X12: of the options given to [New], nil ones are skipped and only the
    last configuration counts: construction from any list of nil and
    WithConfig options is construction from the last WithConfig option
    alone, the earlier configurations being replaced as a whole, not
    merged. *)
Theorem New_last_WithConfig_wins (cs : list (option Config)) (c : Config) :
  lastConfig cs = Some c ->
  New (configOptions cs) = New [Some (WithConfig c)].
Proof.
  intros Hl. unfold New.
  rewrite applyOpts_app, applyOpts_configOptions, Hl.
  reflexivity.
Qed.

(** X13: construction without any configuration option, with no option at
    all or with nil options only, always fails with an error wrapping
    ErrInvalidConfig: the configuration validated is then the empty one. *)
Theorem New_without_config_fails (cs : list (option Config)) :
  lastConfig cs = None ->
  exists msg, New (configOptions cs) = Err (Errorf_w ErrInvalidConfig msg).
Proof.
  intros Hl. rewrite New_configOptions, Hl.
  unfold New. simpl. unfold validate, DeepEqual. simpl.
  rewrite bool_decide_eq_true_2 by reflexivity. simpl. eauto.
Qed.

Lemma construct_cases (c : Config) (auth : Auth) :
  construct c = Ok auth ->
  config auth = c /\
  match Config_Basic c,
        String.eqb (URL (KeyProvider (Config_JWT c))) "" with
  | _, false =>
      exists m, JWT_middleware (Config_JWT c) = Ok m /\
                middleware auth = Some m
  | Some _, true =>
      exists m, Basic_middleware (Config_Basic c) = Ok m /\
                middleware auth = Some m
  | None, true => middleware auth = None
  end.
Proof.
  unfold construct, try.
  destruct (Config_Basic c) as [table|] eqn:Hb.
  - destruct (Basic_middleware (Some table)) as [mb|]; simpl; [|discriminate].
    destruct (String.eqb _ "") eqn:Hurl; simpl.
    + intros Heq. inversion Heq; subst. simpl. eauto.
    + destruct (JWT_middleware _) as [m|]; intros Heq; inversion Heq; subst.
      simpl. eauto.
  - simpl. destruct (String.eqb _ "") eqn:Hurl; simpl.
    + intros Heq. inversion Heq; subst. auto.
    + destruct (JWT_middleware _) as [m|]; intros Heq; inversion Heq; subst.
      simpl. eauto.
Qed.

(** X14: an Auth that [New] built from a configuration is protected
    exactly when the configuration has a Basic table (nil excluded) or a
    non-empty key-provider URL; the other JWT fields do not count. *)
Theorem New_Protected_iff (c : Config) (auth : Auth) :
  New [Some (WithConfig c)] = Ok auth ->
  (Protected auth = true <->
   Config_Basic c <> None \/ URL (KeyProvider (Config_JWT c)) <> "").
Proof.
  intros Hnew. destruct (New_Ok_valid _ _ Hnew) as [_ Hc].
  destruct (construct_cases _ _ Hc) as [_ Hm]. unfold Protected.
  destruct (Config_Basic c) as [table|];
    destruct (String.eqb _ "") eqn:Hurl.
  - destruct Hm as (m & _ & ->). split; [by left|done].
  - destruct Hm as (m & _ & ->). split; [by left|done].
  - apply String.eqb_eq in Hurl.
    rewrite Hm. split; [discriminate|]. intros [?|?]; congruence.
  - apply String.eqb_neq in Hurl.
    destruct Hm as (m & _ & ->). split; [by right|done].
Qed.

(** X15: a configuration with Disable unset, no Basic table and an empty
    key-provider URL, but some other JWT field set (required capabilities,
    a refresh interval, client settings), passes validation and is
    constructed without any middleware, whatever the libraries do: its
    [Then] returns every handler unchanged, so nothing is authenticated
    although auth was not disabled. *)
Theorem New_JWT_without_URL_unprotected (c : Config) :
  Disable c = false ->
  Config_Basic c = None ->
  URL (KeyProvider (Config_JWT c)) = "" ->
  Config_JWT c <> JWT_zero ->
  New [Some (WithConfig c)] = Ok {| middleware := None; config := c |} /\
  Protected {| middleware := None; config := c |} = false /\
  forall h, Then {| middleware := None; config := c |} h = h.
Proof.
  intros Hd Hb Hurl Hj. split; [|split; reflexivity].
  rewrite New_valid.
  - unfold construct. rewrite Hb. simpl. by rewrite Hurl.
  - intros [[Hd' _]|Hz]; [congruence|]. apply Hj. by rewrite Hz.
Qed.

(** X16: when the configuration has a Basic table and an empty
    key-provider URL and construction succeeds, the middleware installed
    is the one [Basic.middleware] returned; with constructors that return
    what they are given, its authorization parser accepts the Basic scheme
    only and its validator is the check against that table. *)
Theorem New_Basic_only (c : Config) (table : gmap string string) (auth : Auth) :
  Config_Basic c = Some table ->
  URL (KeyProvider (Config_JWT c)) = "" ->
  New [Some (WithConfig c)] = Ok auth ->
  exists m,
    Basic_middleware (Config_Basic c) = Ok m /\
    middleware auth = Some m /\
    (constructors_faithful ->
     (basculehttp.WithTokenParsers (basculehttp.UseAuthenticator m)).*1
       = [basculehttp.SchemeBasic] /\
     basculehttp.WithValidators (basculehttp.UseAuthenticator m)
       = Basic_valid (Config_Basic c)).
Proof.
  intros Hb Hurl Hnew. destruct (New_Ok_valid _ _ Hnew) as [_ Hc].
  destruct (construct_cases _ _ Hc) as [_ Hm].
  rewrite Hb, Hurl in Hm. simpl in Hm. destruct Hm as (m & Hbm & Hmid).
  exists m. rewrite Hb. split; [exact Hbm|]. split; [exact Hmid|].
  intros [Hap Hmk]. unfold Basic_middleware, try in Hbm.
  destruct (NewAuthorizationParser _) as [tp|] eqn:Htp; [|discriminate].
  apply Hap in Htp. apply Hmk in Hbm. rewrite Hbm. simpl. by subst tp.
Qed.

Lemma Is_refl (e : error) : Is e e = true.
Proof. destruct e; simpl; by rewrite bool_decide_eq_true_2. Qed.

Lemma Is_Join_l (e1 e2 target : error) :
  Is e1 target = true -> Is (Join e1 e2) target = true.
Proof. intros Hi. simpl. rewrite Hi. by rewrite orb_true_r. Qed.

(** X17: a Basic table whose middleware cannot be built fails construction
    even when a key-provider URL is configured and the JWT middleware would
    have replaced it: the JWT middleware is never attempted, and the error
    is the library's error joined with "error creating basic auth
    middleware", which errors.Is still recognises as the library's. *)
Theorem New_Basic_failure_is_fatal
    (c : Config) (table : gmap string string) (e : error) :
  Disable c = false ->
  Config_Basic c = Some table ->
  Basic_middleware (Config_Basic c) = Err e ->
  New [Some (WithConfig c)] =
    Err (Join e (Errorf "error creating basic auth middleware")) /\
  Is (Join e (Errorf "error creating basic auth middleware")) e = true.
Proof.
  intros Hd Hb Hbm. split; [|apply Is_Join_l, Is_refl].
  rewrite New_valid.
  - unfold construct. rewrite Hb. rewrite <- Hb, Hbm. reflexivity.
  - intros [[Hd' _]|Hz]; [congruence|]. rewrite Hz in Hb. discriminate.
Qed.

(** X18: when the key set cannot be obtained, because the HTTP client
    cannot be built or the URL cannot be registered with the cache,
    construction of a JWT configuration fails with that error joined with
    "error getting public keys" and then with "error creating jwt
    middleware"; errors.Is still recognises the library's error in it. *)
Theorem New_key_set_failure
    (c : Config) (e : error) :
  Disable c = false ->
  URL (KeyProvider (Config_JWT c)) <> "" ->
  Config_Basic c = None \/ is_Ok (Basic_middleware (Config_Basic c)) = true ->
  toKeySet (KeyProvider (Config_JWT c)) = Err e ->
  let err := Join (Join e (Errorf "error getting public keys"))
                  (Errorf "error creating jwt middleware") in
  New [Some (WithConfig c)] = Err err /\
  Is err e = true /\
  (NewClient (HTTPClient (KeyProvider (Config_JWT c))) = Err e \/
   exists client opts,
     NewClient (HTTPClient (KeyProvider (Config_JWT c))) = Ok client /\
     Register jwk.NewCache (URL (KeyProvider (Config_JWT c))) opts = Err e).
Proof.
  intros Hd Hurl Hbasic Hks err. split; [|split].
  - rewrite New_valid.
    + apply String.eqb_neq in Hurl.
      unfold construct, try.
      assert (Hjwt : JWT_middleware (Config_JWT c) =
                       Err (Join e (Errorf "error getting public keys"))).
      { unfold JWT_middleware. by rewrite Hks. }
      destruct Hbasic as [Hb|Hb].
      * rewrite Hb. simpl. by rewrite Hurl, Hjwt.
      * destruct (Config_Basic c) as [table|] eqn:Hcb.
        -- destruct (Basic_middleware (Some table)); [|discriminate].
           simpl. by rewrite Hurl, Hjwt.
        -- simpl. by rewrite Hurl, Hjwt.
    + intros [[Hd' _]|Hz]; [congruence|]. apply Hurl. by rewrite Hz.
  - unfold err. apply Is_Join_l, Is_Join_l, Is_refl.
  - unfold toKeySet, try in Hks.
    destruct (NewClient _) as [client|e0];
      [|left; unfold id in Hks; congruence].
    right.
    match type of Hks with
    | context [Register ?a ?b ?o] =>
        destruct (Register a b o) as [cache|e1] eqn:Hreg; [discriminate|];
        exists client, o
    end.
    split; [reflexivity|]. rewrite Hreg. unfold id in Hks. congruence.
Qed.

End ConstructionProofs.

(* two configurations and nil options in between: the second one counts *)
Lemma New_last_WithConfig_wins_witness :
  let first : Config :=
    {| Disable := false; Config_Basic := Some {["alice" := "secret"]};
       Config_JWT := @JWT_zero example_libraries |} in
  let second : Config := @Config_disabled example_libraries in
  New (configOptions [None; Some first; None; Some second; None])
    = New [Some (WithConfig second)].
Proof.
  intros first second.
  apply (@New_last_WithConfig_wins example_libraries). reflexivity.
Defined.

Lemma New_without_config_fails_witness :
  exists msg,
    @New example_libraries (configOptions [None; None])
      = Err (Errorf_w ErrInvalidConfig msg).
Proof.
  apply (@New_without_config_fails example_libraries [None; None]).
  reflexivity.
Defined.

Lemma New_Protected_iff_witness :
  let c : Config :=
    {| Disable := false; Config_Basic := Some {["alice" := "secret"]};
       Config_JWT := @JWT_zero example_libraries |} in
  exists auth, New [Some (WithConfig c)] = Ok auth /\ Protected auth = true.
Proof.
  intros c.
  destruct (New [Some (WithConfig c)]) as [auth|e] eqn:Hnew;
    [|vm_compute in Hnew; discriminate].
  exists auth. split; [reflexivity|].
  apply (proj2 (@New_Protected_iff example_libraries c auth Hnew)).
  left. discriminate.
Defined.

(* only the required capabilities are set: accepted, and unprotected *)
Lemma New_JWT_without_URL_unprotected_witness :
  let c : Config :=
    {| Disable := false; Config_Basic := None;
       Config_JWT :=
         {| KeyProvider := @Provider_zero example_libraries;
            RequiredServiceCapabilities := Some ["read"] |} |} in
  New [Some (WithConfig c)] = Ok {| middleware := None; config := c |} /\
  Protected {| middleware := None; config := c |} = false /\
  forall h, Then {| middleware := None; config := c |} h = h.
Proof.
  intros c.
  apply (@New_JWT_without_URL_unprotected example_libraries c);
    try reflexivity.
  discriminate.
Defined.

Lemma New_Basic_only_witness :
  let c : Config :=
    {| Disable := false; Config_Basic := Some {["alice" := "secret"]};
       Config_JWT := @JWT_zero example_libraries |} in
  exists auth m,
    New [Some (WithConfig c)] = Ok auth /\
    middleware auth = Some m /\
    (basculehttp.WithTokenParsers (basculehttp.UseAuthenticator m)).*1
      = [basculehttp.SchemeBasic].
Proof.
  intros c.
  destruct (New [Some (WithConfig c)]) as [auth|e] eqn:Hnew;
    [|vm_compute in Hnew; discriminate].
  destruct (@New_Basic_only example_libraries c {["alice" := "secret"]} auth
              eq_refl eq_refl Hnew) as (m & _ & Hm & Hf).
  exists auth, m. split; [reflexivity|]. split; [exact Hm|].
  apply (proj1 (Hf example_constructors_faithful)).
Defined.

(* a table whose middleware is refused, with a key-provider URL set *)
Lemma New_Basic_failure_is_fatal_witness :
  let c : Config :=
    {| Disable := false; Config_Basic := Some {["alice" := "secret"]};
       Config_JWT :=
         {| KeyProvider :=
              {| URL := "https://keys.example/jwks"; RefreshInterval := 900;
                 HTTPClient := @ClientConfig_zero refusing_libraries;
                 DisableAutoAddMissingAlgorithm := false |};
            RequiredServiceCapabilities := None |} |} in
  New [Some (WithConfig c)] =
    Err (Join (Library "basculehttp" "scheme refused")
              (Errorf "error creating basic auth middleware")).
Proof.
  intros c.
  apply (@New_Basic_failure_is_fatal refusing_libraries c
           {["alice" := "secret"]}); reflexivity.
Defined.

(* a key provider whose client has a negative timeout *)
Lemma New_key_set_failure_witness :
  let c : Config :=
    {| Disable := false; Config_Basic := None;
       Config_JWT :=
         {| KeyProvider :=
              {| URL := "https://keys.example/jwks"; RefreshInterval := 900;
                 HTTPClient := (-1)%Z : @ClientConfig refusing_libraries;
                 DisableAutoAddMissingAlgorithm := false |};
            RequiredServiceCapabilities := None |} |} in
  New [Some (WithConfig c)] =
    Err (Join (Join (Library "arrangehttp" "negative timeout")
                    (Errorf "error getting public keys"))
              (Errorf "error creating jwt middleware")).
Proof.
  intros c.
  apply (@New_key_set_failure refusing_libraries c).
  - reflexivity.
  - discriminate.
  - left. reflexivity.
  - reflexivity.
Defined.

(** ** internal/metrics and internal/loggerfx *)

(** X19: [GetUnknownTagIfEmpty] never returns the empty tag: it returns
    "unknown" for the empty tag and every other tag as it is, so applying
    it twice is applying it once. *)
Theorem GetUnknownTagIfEmpty_never_empty (tag : string) :
  metrics.GetUnknownTagIfEmpty tag <> "" /\
  (tag <> "" -> metrics.GetUnknownTagIfEmpty tag = tag) /\
  (tag = "" -> metrics.GetUnknownTagIfEmpty tag = "unknown") /\
  metrics.GetUnknownTagIfEmpty (metrics.GetUnknownTagIfEmpty tag)
    = metrics.GetUnknownTagIfEmpty tag.
Proof.
  unfold metrics.GetUnknownTagIfEmpty.
  destruct (String.eqb tag "") eqn:He.
  - apply String.eqb_eq in He. subst. simpl. repeat split; congruence.
  - rewrite He. apply String.eqb_neq in He. repeat split; congruence.
Qed.

Lemma GetUnknownTagIfEmpty_never_empty_witness :
  metrics.GetUnknownTagIfEmpty "some-tag" = "some-tag" /\
  metrics.GetUnknownTagIfEmpty "" = "unknown".
Proof.
  split.
  - apply (proj1 (proj2 (GetUnknownTagIfEmpty_never_empty "some-tag"))).
    discriminate.
  - apply (proj1 (proj2 (proj2 (GetUnknownTagIfEmpty_never_empty "")))).
    reflexivity.
Defined.

Lemma firstNonEmpty_app (pre post : list string) :
  Forall (fun cp => cp = "") pre ->
  loggerfx.firstNonEmpty (pre ++ post) = loggerfx.firstNonEmpty post.
Proof.
  induction 1 as [|cp pre Hcp _ IH]; [reflexivity|].
  simpl. by rewrite Hcp.
Qed.

Lemma firstNonEmpty_cons (cp : string) (rest : list string) :
  cp <> "" -> loggerfx.firstNonEmpty (cp :: rest) = cp.
Proof.
  intros Hne. simpl. apply String.eqb_neq in Hne. by rewrite Hne.
Qed.

(** X20: the configuration path the logger module reads is never empty: it
    is the first non-empty path among those given, and the default
    "logging" when none is given or all of them are empty. *)
Theorem Module_path_first_non_empty (configPath : list string) :
  loggerfx.Module_path configPath <> "" /\
  (Forall (fun cp => cp = "") configPath ->
   loggerfx.Module_path configPath = "logging") /\
  (forall pre cp post,
     configPath = pre ++ cp :: post ->
     Forall (fun cp => cp = "") pre -> cp <> "" ->
     loggerfx.Module_path configPath = cp).
Proof.
  unfold loggerfx.Module_path.
  assert (Hall : Forall (fun cp => cp = "") configPath ->
                 loggerfx.firstNonEmpty
                   (configPath ++ [loggerfx.deaultConfigPath]) = "logging").
  { intros He. by rewrite firstNonEmpty_app. }
  assert (Hfirst : forall pre cp post,
            configPath = pre ++ cp :: post ->
            Forall (fun cp => cp = "") pre -> cp <> "" ->
            loggerfx.firstNonEmpty
              (configPath ++ [loggerfx.deaultConfigPath]) = cp).
  { intros pre cp post -> Hpre Hne.
    rewrite <- app_assoc, firstNonEmpty_app by exact Hpre.
    by apply firstNonEmpty_cons. }
  split; [|split; [exact Hall|exact Hfirst]].
  clear Hall Hfirst.
  induction configPath as [|cp rest IH]; [discriminate|].
  simpl. destruct (String.eqb cp "") eqn:He; simpl; [exact IH|].
  by apply String.eqb_neq.
Qed.

Lemma Module_path_first_non_empty_witness :
  loggerfx.Module_path [""; ""] = "logging" /\
  loggerfx.Module_path [""; "foo.logging"; "bar"] = "foo.logging".
Proof.
  split.
  - apply (proj1 (proj2 (Module_path_first_non_empty [""; ""]))).
    repeat constructor.
  - apply (proj2 (proj2 (Module_path_first_non_empty
                           [""; "foo.logging"; "bar"]))
             [""] "foo.logging" ["bar"]).
    + reflexivity.
    + repeat constructor.
    + discriminate.
Defined.

(** ** internal/oker *)

Section OkerProofs.
Context {Eventor : Type} (Eventor_zero : Eventor).

Lemma oker_applyOpts_app (opts1 opts2 : list (option (oker.Option Eventor))) :
  forall s,
    oker.applyOpts (opts1 ++ opts2) s =
      try (oker.applyOpts opts1 s) id (oker.applyOpts opts2).
Proof.
  induction opts1 as [|[opt|] opts1 IH]; intros s; simpl; auto.
  destruct (opt s) as [s'|e]; simpl; auto.
Qed.

Lemma oker_applyOpts_WithConfig (cs : list (option oker.Config)) : forall s,
  oker.applyOpts
    ((fun oc : option oker.Config =>
        match oc with
        | Some c => Some (oker.WithConfig (Eventor := Eventor) c)
        | None => None
        end) <$> cs) s =
    Ok {| oker.config := default (oker.config s) (last (omap id cs));
          oker.okEventListeners := oker.okEventListeners s |}.
Proof.
  induction cs as [|[c|] cs IH]; intros s; simpl.
  - by destruct s.
  - rewrite IH. simpl. by rewrite default_last_cons.
  - apply IH.
Qed.

(** X21: construction of the ok server never fails on nil and WithConfig
    options, not even on none at all: it returns a server with the
    configuration of the last WithConfig option, the zero configuration
    when there is none, and no listener.  When an option returns an
    error, construction returns that error and applies no later option. *)
Theorem oker_New_options :
  (forall cs : list (option oker.Config),
     oker.New Eventor_zero
       ((fun oc : option oker.Config =>
           match oc with
           | Some c => Some (oker.WithConfig (Eventor := Eventor) c)
           | None => None
           end) <$> cs) =
       Ok {| oker.config := default {| oker.Name := "" |} (last (omap id cs));
             oker.okEventListeners := Eventor_zero |}) /\
  (forall pre opt post s e,
     oker.New Eventor_zero pre = Ok s ->
     opt s = Err e ->
     oker.New Eventor_zero (pre ++ Some opt :: post) = Err e).
Proof.
  split.
  - intros cs. unfold oker.New. by rewrite oker_applyOpts_WithConfig.
  - intros pre opt post s e Hpre Hopt. unfold oker.New in *.
    rewrite oker_applyOpts_app, Hpre. simpl. by rewrite Hopt.
Qed.

End OkerProofs.

Lemma oker_New_options_witness :
  let refuse : oker.Option unit :=
    fun _ => Err (Errorf "no listener") in
  oker.New tt [Some (oker.WithConfig {| oker.Name := "ok" |}); Some refuse;
               Some (oker.WithConfig {| oker.Name := "late" |})]
    = Err (Errorf "no listener").
Proof.
  intros refuse.
  apply (proj2 (oker_New_options tt)
           [Some (oker.WithConfig {| oker.Name := "ok" |})] refuse
           [Some (oker.WithConfig {| oker.Name := "late" |})]
           {| oker.config := {| oker.Name := "ok" |};
              oker.okEventListeners := tt |});
    reflexivity.
Defined.
